(** * advanced-open-file: the [Path] model of [lib/models.js]

    A shallow embedding of the [Path] class and of the JavaScript string
    and array primitives it relies on, followed by the properties of the
    path decomposition, of [parent], [asDirectory], [hasShortcut] and of
    [commonPrefix].

    JavaScript strings are sequences of code units; the embedding uses
    [string], whose characters are the code units below 256.  A call that
    can throw returns a [result]. *)

From Stdlib Require Import Ascii String.
From stdpp Require Import gmap strings sorting.

(** ** Results of calls that may throw *)

Inductive exn : Type :=
  | TypeError
  | Error (message : string).

Inductive result (A : Type) : Type :=
  | Ok (a : A)
  | Throw (e : exn).

Arguments Ok {A} a.
Arguments Throw {A} e.

Definition rbind {A B : Type} (c : result A) (k : A -> result B) : result B :=
  match c with
  | Ok a => k a
  | Throw e => Throw e
  end.

Definition returns {A : Type} (c : result A) : Prop := exists a, c = Ok a.
Definition throws {A : Type} (c : result A) : Prop := exists e, c = Throw e.

(** ** JavaScript string primitives *)

Module JS.

(** [s.split(sep)] for a separator of one code unit: the segments between
    the occurrences of [sep], in order. *)
Fixpoint split (sep : ascii) (s : string) : list string :=
  match s with
  | EmptyString => [EmptyString]
  | String c s' =>
      if Ascii.eqb c sep then EmptyString :: split sep s'
      else match split sep s' with
           | [] => [String c EmptyString]
           | seg :: segs => String c seg :: segs
           end
  end.

(** [a[a.length - 1]]: [None] stands for [undefined]. *)
Definition lastItem {A : Type} (a : list A) : option A :=
  a !! (length a - 1).

(** [s.substring(0, n)]; a negative end counts as 0, which the truncated
    subtraction of [nat] gives at the call site. *)
Definition substring0 (n : nat) (s : string) : string :=
  String.substring 0 n s.

(** [s.endsWith(x)]. *)
Definition endsWith (s x : string) : bool :=
  let ls := String.length s in
  let lx := String.length x in
  if lx <=? ls then String.eqb (String.substring (ls - lx) lx s) x
  else false.

(** A non-empty string is truthy. *)
Definition truthy (s : string) : bool :=
  match s with
  | EmptyString => false
  | String _ _ => true
  end.

(** [c.toLowerCase()] on one code unit below 256: the letters A-Z and the
    Latin-1 capitals U+00C0-U+00DE, the multiplication sign U+00D7
    excepted, move up by 32. *)
Definition toLowerCase_char (c : ascii) : ascii :=
  let n := nat_of_ascii c in
  if (65 <=? n) && (n <=? 90) then ascii_of_nat (n + 32)
  else if (192 <=? n) && (n <=? 222) && negb (n =? 215) then ascii_of_nat (n + 32)
  else c.

Fixpoint toLowerCase (s : string) : string :=
  match s with
  | EmptyString => EmptyString
  | String c s' => String (toLowerCase_char c) (toLowerCase s')
  end.

(** The one-character string. *)
Definition str (c : ascii) : string := String c EmptyString.

End JS.

(** ** The [Path] objects *)

Record Path : Type := mkPath {
  directory : string;
  fragment : string;
  full : string;
  absolute : string;
  sep : ascii
}.

Section Models.

(** The imports of [lib/models.js]: two helpers of [./utils] and Node's
    [path.dirname]. *)
Variable preferredSeparatorFor : string -> ascii.
Variable absolutify : string -> string.
Variable dirname : string -> string.

(** [String.prototype.localeCompare] in the default locale of the host: a
    negative number, zero or a positive number.  Its collation is left to
    the implementation and its locale data. *)
Variable localeCompare : string -> string -> Z.

(** [new Path(path)].  [fragment.length] throws a [TypeError] when
    [parts] has no last item. *)
Definition new_Path (path : string) : result Path :=
  let sep := preferredSeparatorFor path in
  let parts := JS.split sep path in
  match JS.lastItem parts with
  | None => Throw TypeError
  | Some fragment =>
      let directory :=
        JS.substring0 (String.length path - String.length fragment) path in
      Ok {| directory := directory;
            fragment := fragment;
            full := path;
            absolute := absolutify path;
            sep := sep |}
  end.

Definition isRoot (this : Path) : bool :=
  String.eqb (dirname (absolute this)) (absolute this).

Definition hasCaseSensitiveFragment (this : Path) : bool :=
  negb (String.eqb (fragment this) EmptyString)
  && negb (String.eqb (fragment this) (JS.toLowerCase (fragment this))).

Definition asDirectory (this : Path) : result Path :=
  new_Path (full this +:+
            (if JS.truthy (fragment this) then JS.str (sep this) else EmptyString)).

Definition parent (this : Path) : result Path :=
  if isRoot this then Ok this
  else if JS.truthy (fragment this) then new_Path (directory this)
  else
    let newFull := dirname (directory this) in
    let newFull :=
      if negb (JS.endsWith newFull (JS.str (sep this)))
      then newFull +:+ JS.str (sep this)
      else newFull in
    new_Path newFull.

Definition hasShortcut (this : Path) (shortcut : string) : bool :=
  let shortcut := shortcut +:+ JS.str (sep this) in
  negb (JS.truthy (fragment this))
  && (JS.endsWith (directory this) (JS.str (sep this) +:+ shortcut)
      || String.eqb (directory this) shortcut).

Definition equals (this otherPath : Path) : bool :=
  String.eqb (full this) (full otherPath).

(** [Path.compare(path1, path2)]: the collation of the host decides. *)
Definition compare (path1 path2 : Path) : Z :=
  localeCompare (full path1) (full path2).

End Models.

(** ** Arrays and the store

    [commonPrefix] receives a reference to the caller's array, builds a
    second array with [map] and sorts that one in place.  The store maps
    references to arrays; [Array.prototype.sort] updates the cell it is
    called on. *)

Inductive array : Type :=
  | PathArray (items : list Path)
  | StringArray (items : list string).

Definition array_length (a : array) : nat :=
  match a with
  | PathArray items => length items
  | StringArray items => length items
  end.

Abbreviation ref := nat (only parsing).
Abbreviation store := (gmap nat array).

Module JSArray.

(** Insertion into a list in ascending order of code units, before the
    first item that is not smaller. *)
Fixpoint insert (x : string) (l : list string) : list string :=
  match l with
  | [] => [x]
  | y :: l' => if String.leb x y then x :: y :: l' else y :: insert x l'
  end.

(** The order [sort()] leaves strings in: ascending by code units.  Equal
    strings are identical, so every sorting algorithm gives this list. *)
Fixpoint sorted (l : list string) : list string :=
  match l with
  | [] => []
  | x :: l' => insert x (sorted l')
  end.

(** A new array gets a reference that is not in use. *)
Definition alloc (a : array) (h : store) : ref * store :=
  let r := fresh (dom h) in (r, <[r := a]> h).

(** [a.map(path => path.full)]: a new array, the receiver is only
    read.  An item that is not a [Path] has no [full]. *)
Definition map_full (r : ref) (h : store) : result ref * store :=
  match h !! r with
  | Some (PathArray items) =>
      let (r', h') := alloc (StringArray (map full items)) h in (Ok r', h')
  | _ => (Throw TypeError, h)
  end.

(** [a.sort()]: sorts the array at [r] in place and returns [r].  The
    items of a [PathArray] all print alike and keep their order. *)
Definition sort (r : ref) (h : store) : ref * store :=
  match h !! r with
  | Some (StringArray items) => (r, <[r := StringArray (sorted items)]> h)
  | _ => (r, h)
  end.

End JSArray.

Section CommonPrefix.

Variable preferredSeparatorFor : string -> ascii.
Variable absolutify : string -> string.

(** The [for] loop, [n] iterations before [k] reaches [prefixMaxLength];
    leaving the match early is the [break].  Both strings have a character
    at [k] as long as [k] is below [prefixMaxLength]. *)
Fixpoint commonPrefix_loop (first last : string) (caseSensitive : bool)
    (n k : nat) (prefix : string) : string :=
  match n with
  | 0 => prefix
  | S n' =>
      match String.get k first, String.get k last with
      | Some a, Some b =>
          if Ascii.eqb a b then
            commonPrefix_loop first last caseSensitive n' (S k)
              (prefix +:+ JS.str a)
          else if negb caseSensitive
                  && Ascii.eqb (JS.toLowerCase_char a) (JS.toLowerCase_char b) then
            commonPrefix_loop first last caseSensitive n' (S k)
              (prefix +:+ JS.str (JS.toLowerCase_char a))
          else prefix
      | _, _ => prefix
      end
  end.

(** The statements after the sort, on the sorted strings. *)
Definition commonPrefix_of_sorted (paths : list string) (caseSensitive : bool)
    : result Path :=
  match paths !! 0, JS.lastItem paths with
  | Some first, Some last =>
      let prefixMaxLength := Nat.min (String.length first) (String.length last) in
      let prefix :=
        commonPrefix_loop first last caseSensitive prefixMaxLength 0 EmptyString in
      new_Path preferredSeparatorFor absolutify prefix
  | _, _ => Throw TypeError
  end.

Definition commonPrefix_message : string :=
  "Cannot find common prefix for lists shorter than two elements.".

(** [Path.commonPrefix(paths, caseSensitive)], on the store. *)
Definition commonPrefix (paths : ref) (caseSensitive : bool) (h : store)
    : result Path * store :=
  match h !! paths with
  | None => (Throw TypeError, h)
  | Some a =>
      if array_length a <? 2 then (Throw (Error commonPrefix_message), h)
      else
        match JSArray.map_full paths h with
        | (Throw e, h1) => (Throw e, h1)
        | (Ok mapped, h1) =>
            let (paths', h2) := JSArray.sort mapped h1 in
            match h2 !! paths' with
            | Some (StringArray items) =>
                (commonPrefix_of_sorted items caseSensitive, h2)
            | _ => (Throw TypeError, h2)
            end
        end
  end.

End CommonPrefix.

(** ** The separator of a path *)

(** The character [c] occurs in [s]. *)
Fixpoint occurs (c : ascii) (s : string) : bool :=
  match s with
  | EmptyString => false
  | String a s' => Ascii.eqb a c || occurs c s'
  end.

(** Modelled from the spec: [preferredSeparatorFor] of [lib/utils.js], which
    is not among the sources.  A string in which only one of the two
    separators occurs uses that one; when both occur, or neither, the
    separator is the native one of the platform, [nativeSep]. *)
Definition utils_preferredSeparatorFor (nativeSep : ascii) (path : string) : ascii :=
  let forward := occurs "/" path in
  let back := occurs "\" path in
  if forward && negb back then "/"%char
  else if back && negb forward then "\"%char
  else nativeSep.

(** ** A POSIX host *)

Module Posix.

Definition nativeSep : ascii := "/".

Definition isSlash (c : ascii) : bool := Ascii.eqb c "/".

Fixpoint dropWhile (f : ascii -> bool) (l : list ascii) : list ascii :=
  match l with
  | [] => []
  | c :: l' => if f c then dropWhile f l' else l
  end.

(** Node's [path.posix.dirname]: trailing slashes are skipped, then the
    last segment; what is left, up to the slash found, is the result.  The
    scan stops before index 0. *)
Definition dirname (path : string) : string :=
  match list_ascii_of_string path with
  | [] => "."
  | c0 :: rest =>
      let hasRoot := isSlash c0 in
      match dropWhile (fun c => negb (isSlash c)) (dropWhile isSlash (rev rest)) with
      | [] => if hasRoot then "/" else "."
      | _ :: before =>
          if hasRoot && (length before =? 0) then "//"
          else string_of_list_ascii (c0 :: rev before)
      end
  end.

(** The segments of a path with [.] and empty segments dropped and each
    [..] cancelling the segment before it; nothing lies above the root. *)
Fixpoint normalize (segments stack : list string) : list string :=
  match segments with
  | [] => rev stack
  | seg :: segments' =>
      if String.eqb seg "" || String.eqb seg "." then normalize segments' stack
      else if String.eqb seg ".." then normalize segments' (tail stack)
      else normalize segments' (seg :: stack)
  end.

(** Modelled from the spec: [absolutify] of [lib/utils.js], which is not
    among the sources.  It resolves a possibly relative path against a
    base directory; [base] is that directory, an absolute path. *)
Definition absolutify (base : string) (path : string) : string :=
  let joined :=
    match path with
    | String "/" _ => path
    | _ => base +:+ "/" +:+ path
    end in
  "/" +:+ String.concat "/" (normalize (JS.split "/" joined) []).

End Posix.

(** ** Vocabulary of the specification *)

Definition isPrefixOf (p s : string) : Prop := exists r, s = p +:+ r.

Definition isSuffixOf (x s : string) : Prop := exists d, s = d +:+ x.

(** [p] starts every string of [l]. *)
Definition commonPrefixOf (p : string) (l : list string) : Prop :=
  Forall (isPrefixOf p) l.

(** [p] starts every string of [l], and so does no longer string: every
    common prefix is a prefix of [p]. *)
Definition longestCommonPrefixOf (p : string) (l : list string) : Prop :=
  commonPrefixOf p l /\ forall q, commonPrefixOf q l -> isPrefixOf q p.

(** The same with letter case ignored. *)
Definition isPrefixOf_ci (p s : string) : Prop :=
  isPrefixOf (JS.toLowerCase p) (JS.toLowerCase s).

Definition commonPrefixOf_ci (p : string) (l : list string) : Prop :=
  Forall (isPrefixOf_ci p) l.

Definition longestCommonPrefixOf_ci (p : string) (l : list string) : Prop :=
  commonPrefixOf_ci p l /\ forall q, commonPrefixOf_ci q l -> isPrefixOf_ci q p.

(** The order of [sort()] on strings: by code units, a prefix first. *)
Definition str_le (a b : string) : Prop := String.leb a b = true.

(** What the loop of [commonPrefix] reads off two strings, by recursion on
    the strings instead of an index: the characters up to the first position
    where they differ, in lower case where they differ by case only and
    case is ignored. *)
Fixpoint sharedPrefix (caseSensitive : bool) (a b : string) : string :=
  match a, b with
  | String x a', String y b' =>
      if Ascii.eqb x y then String x (sharedPrefix caseSensitive a' b')
      else if negb caseSensitive
              && Ascii.eqb (JS.toLowerCase_char x) (JS.toLowerCase_char y) then
        String (JS.toLowerCase_char x) (sharedPrefix caseSensitive a' b')
      else EmptyString
  | _, _ => EmptyString
  end.

(** A directory-form path has an empty fragment. *)
Definition isDirectoryForm (p : Path) : Prop := fragment p = EmptyString.

(** What [dirname] may do to separators: it adds none that its argument
    does not have. *)
Definition addsNoSeparator (dirname : string -> string) : Prop :=
  forall (c : ascii) (x : string),
    c = "/"%char \/ c = "\"%char ->
    occurs c (dirname x) = true -> occurs c x = true.

(** ** The methods that read the host *)

(** [a.indexOf(x)] on an array of strings: the first index at which [x]
    is found, counted from [i], or -1. *)
Fixpoint indexOf_from (a : list string) (x : string) (i : Z) : Z :=
  match a with
  | [] => (-1)%Z
  | y :: a' => if String.eqb y x then i else indexOf_from a' x (i + 1)%Z
  end.

Definition indexOf (a : list string) (x : string) : Z := indexOf_from a x 0%Z.

(** A text editor of the workspace; [getPath()] is [None] for a buffer
    that has no file. *)
Record TextEditor : Type := mkTextEditor {
  getPath : option string
}.

Section HostMethods.

Variable preferredSeparatorFor : string -> ascii.
Variable absolutify : string -> string.
Variable dirname : string -> string.

(** [path.sep] of Node. *)
Variable stdPath_sep : ascii.

(** [atom.project.getPaths()]. *)
Variable projectPaths : list string.

(** The two constants of [./config] that [initial] tests. *)
Variable DEFAULT_ACTIVE_FILE_DIR : string.
Variable DEFAULT_PROJECT_ROOT : string.

Definition isProjectDirectory (this : Path) : bool :=
  negb (indexOf projectPaths (absolute this) =? -1)%Z.

(** The [while] loop of [root()]: [fuel] bounds the number of times the
    condition is tested, [None] tells that the bound was reached.  [last]
    starts as [null], which no string equals. *)
Fixpoint root_loop (fuel : nat) (last : option string) (current : string)
    : option string :=
  match fuel with
  | 0 => None
  | S fuel' =>
      let same :=
        match last with
        | Some l => String.eqb current l
        | None => false
        end in
      if negb same then root_loop fuel' (Some current) (dirname current)
      else Some current
  end.

Definition root (fuel : nat) (this : Path) : option (result Path) :=
  match root_loop fuel None (absolute this) with
  | Some current => Some (new_Path preferredSeparatorFor absolutify current)
  | None => None
  end.

(** What [initial()] does from [case config.DEFAULT_PROJECT_ROOT] on, the
    [return] after the [switch] included.  [projectPath] is the value of
    [getProjectPath()], [None] when it is [null]. *)
Definition initial_from_project (projectPath : option string) : result Path :=
  match projectPath with
  | Some p =>
      if JS.truthy p then
        new_Path preferredSeparatorFor absolutify (p +:+ JS.str stdPath_sep)
      else new_Path preferredSeparatorFor absolutify EmptyString
  | None => new_Path preferredSeparatorFor absolutify EmptyString
  end.

(** [Path.initial()].  [defaultInputValue] is the value of
    [config.get('defaultInputValue')] and [editor] that of
    [atom.workspace.getActiveTextEditor()].  The first [case] has no
    [break]: without a path of the editor it runs into the second. *)
Definition initial (defaultInputValue : string) (editor : option TextEditor)
    (projectPath : option string) : result Path :=
  if String.eqb defaultInputValue DEFAULT_ACTIVE_FILE_DIR then
    match editor with
    | Some e =>
        match getPath e with
        | Some path =>
            if JS.truthy path then
              new_Path preferredSeparatorFor absolutify
                (dirname path +:+ JS.str stdPath_sep)
            else initial_from_project projectPath
        | None => initial_from_project projectPath
        end
    | None => initial_from_project projectPath
    end
  else if String.eqb defaultInputValue DEFAULT_PROJECT_ROOT then
    initial_from_project projectPath
  else new_Path preferredSeparatorFor absolutify EmptyString.

End HostMethods.

(** * Properties *)

(** ** Strings *)

Lemma app_nil_str (t : string) : EmptyString +:+ t = t.
Proof. reflexivity. Qed.

Lemma app_cons_str (c : ascii) (s t : string) :
  String c s +:+ t = String c (s +:+ t).
Proof. reflexivity. Qed.

Ltac str_simpl :=
  repeat (rewrite ?app_cons_str, ?app_nil_str in *; simpl in * ).

Lemma length_app (s t : string) :
  String.length (s +:+ t) = String.length s + String.length t.
Proof. induction s as [|c s IH]; str_simpl; congruence. Qed.

Lemma app_empty_r (s : string) : s +:+ EmptyString = s.
Proof. induction s as [|c s IH]; str_simpl; congruence. Qed.

Lemma app_assoc_str (s t u : string) : (s +:+ t) +:+ u = s +:+ (t +:+ u).
Proof. induction s as [|c s IH]; str_simpl; congruence. Qed.

Lemma substring_all (s : string) : String.substring 0 (String.length s) s = s.
Proof. induction s as [|c s IH]; simpl; congruence. Qed.

Lemma substring_app_l (d x : string) :
  String.substring 0 (String.length d) (d +:+ x) = d.
Proof.
  induction d as [|c d IH]; str_simpl.
  - by destruct x.
  - congruence.
Qed.

Lemma substring_app_r (d x : string) :
  String.substring (String.length d) (String.length x) (d +:+ x) = x.
Proof.
  induction d as [|c d IH]; str_simpl; [apply substring_all | done].
Qed.

(** A string is the part before [n] followed by the [m] characters from
    [n] on, when these reach its end. *)
Lemma substring_split (s : string) (n m : nat) :
  n + m = String.length s ->
  s = String.substring 0 n s +:+ String.substring n m s.
Proof.
  revert n m. induction s as [|c s IH]; intros n m Hlen; simpl in *.
  - by destruct n, m.
  - destruct n as [|n]; simpl.
    + destruct m as [|m]; [done|]. rewrite app_nil_str. f_equal.
      injection Hlen as ->. by rewrite substring_all.
    + rewrite app_cons_str. f_equal. apply IH. lia.
Qed.

Lemma occurs_app (c : ascii) (s t : string) :
  occurs c (s +:+ t) = occurs c s || occurs c t.
Proof.
  induction s as [|a s IH]; str_simpl; [done|].
  rewrite IH. by destruct (Ascii.eqb a c).
Qed.

Lemma occurs_elem_of (c : ascii) (s : string) :
  occurs c s = true <-> c ∈ list_ascii_of_string s.
Proof.
  induction s as [|a s IH]; simpl.
  - split; [done | by intros ?%elem_of_nil].
  - rewrite elem_of_cons, orb_true_iff, IH, Ascii.eqb_eq.
    split; (intros [?|?]; [left | right]); done.
Qed.

(** [endsWith] decides [isSuffixOf]. *)
Lemma endsWith_spec (s x : string) : JS.endsWith s x = true <-> isSuffixOf x s.
Proof.
  unfold JS.endsWith, isSuffixOf. split.
  - destruct (Nat.leb_spec (String.length x) (String.length s)) as [Hle|]; [|done].
    intros Heq%String.eqb_eq.
    exists (String.substring 0 (String.length s - String.length x) s).
    pose proof (substring_split s (String.length s - String.length x)
                  (String.length x)) as Hsplit.
    rewrite Heq in Hsplit. apply Hsplit. lia.
  - intros [d ->]. rewrite length_app.
    destruct (Nat.leb_spec (String.length x) (String.length d + String.length x));
      [|lia].
    replace (String.length d + String.length x - String.length x)
      with (String.length d) by lia.
    rewrite substring_app_r. apply String.eqb_refl.
Qed.

Lemma truthy_false (s : string) : JS.truthy s = false <-> s = EmptyString.
Proof. by destruct s. Qed.

(** ** [split] and the last segment *)

Section Split.

Context (c : ascii).

Lemma split_not_nil (s : string) : JS.split c s <> [].
Proof.
  destruct s as [|a s]; simpl; [done|].
  destruct (Ascii.eqb a c); [done|]. by destruct (JS.split c s).
Qed.

(** Joining the segments with the separator gives the string back. *)
Lemma split_join (s : string) : String.concat (JS.str c) (JS.split c s) = s.
Proof.
  induction s as [|a s IH]; simpl; [done|].
  pose proof (split_not_nil s) as Hnil.
  destruct (Ascii.eqb_spec a c) as [->|Hne].
  - destruct (JS.split c s) as [|seg segs] eqn:Hs; [done|].
    change (String.concat (JS.str c) (EmptyString :: seg :: segs))
      with (EmptyString +:+ JS.str c +:+ String.concat (JS.str c) (seg :: segs)).
    by rewrite IH.
  - destruct (JS.split c s) as [|seg segs] eqn:Hs; [done|].
    destruct segs as [|seg' segs]; simpl in *; [by rewrite IH|].
    by rewrite <- IH.
Qed.

(** No segment holds the separator. *)
Lemma split_no_sep (s : string) :
  Forall (fun seg => occurs c seg = false) (JS.split c s).
Proof.
  induction s as [|a s IH]; simpl; [by repeat constructor|].
  destruct (Ascii.eqb_spec a c) as [->|Hne]; [by constructor|].
  destruct (JS.split c s) as [|seg segs]; [|inversion_clear IH as [|?? Hseg Hsegs]];
    constructor; simpl; try done.
  - by apply Ascii.eqb_neq in Hne as ->.
  - by apply Ascii.eqb_neq in Hne as ->.
Qed.

(** The segments before the last one, each followed by the separator. *)
Lemma concat_snoc (init : list string) (x : string) :
  exists d, String.concat (JS.str c) (init ++ [x]) = d +:+ x
            /\ (d = EmptyString \/ isSuffixOf (JS.str c) d).
Proof.
  induction init as [|y init (d & Hd & Hsuf)]; simpl.
  - exists EmptyString. split; [done | by left].
  - exists (y +:+ JS.str c +:+ d). split.
    + destruct (init ++ [x]) as [|z zs] eqn:Hz; [by destruct init|].
      by rewrite Hd, !app_assoc_str.
    + right. destruct Hsuf as [->|[e ->]].
      * exists y. by rewrite app_empty_r.
      * exists (y +:+ JS.str c +:+ e). by rewrite !app_assoc_str.
Qed.

(** The last segment ends the string, holds no separator, and what is
    before it is empty or ends with the separator. *)
Lemma split_last (s : string) :
  exists d frag,
    JS.lastItem (JS.split c s) = Some frag
    /\ s = d +:+ frag
    /\ occurs c frag = false
    /\ (d = EmptyString \/ isSuffixOf (JS.str c) d).
Proof.
  unfold JS.lastItem. rewrite Nat.sub_1_r, <- last_lookup.
  destruct (last (JS.split c s)) as [frag|] eqn:Hlast.
  - apply last_Some in Hlast as [init Hinit].
    destruct (concat_snoc init frag) as (d & Hd & Hsuf).
    exists d, frag. split_and!; [done | | | done].
    + by rewrite <- Hd, <- Hinit, split_join.
    + pose proof (split_no_sep s) as Hall. rewrite Hinit in Hall.
      apply Forall_app in Hall as [_ Hall]. by inversion Hall.
  - apply last_None in Hlast. by apply split_not_nil in Hlast.
Qed.

End Split.

(** A string that ends with the separator has an empty last segment. *)
Lemma split_trailing_sep (c : ascii) (e : string) :
  exists init, init <> [] /\ JS.split c (e +:+ JS.str c) = init ++ [EmptyString].
Proof.
  induction e as [|a e (init & Hinit & IH)]; str_simpl.
  - exists [EmptyString]. by rewrite Ascii.eqb_refl.
  - rewrite IH. destruct init as [|y init]; [done|].
    destruct (Ascii.eqb a c).
    + by exists (EmptyString :: y :: init).
    + by exists (String a y :: init).
Qed.

Lemma lastItem_snoc {A : Type} (init : list A) (x : A) :
  JS.lastItem (init ++ [x]) = Some x.
Proof.
  unfold JS.lastItem. by rewrite Nat.sub_1_r, <- last_lookup, last_snoc.
Qed.

(** ** Construction *)

Section Construction.

Context (preferredSeparatorFor : string -> ascii) (absolutify : string -> string).

Local Abbreviation new := (new_Path preferredSeparatorFor absolutify).

(** The fields of a new [Path], without [split]. *)
Lemma new_Path_fields (s : string) :
  exists d frag,
    new s = Ok (mkPath d frag s (absolutify s) (preferredSeparatorFor s))
    /\ s = d +:+ frag
    /\ occurs (preferredSeparatorFor s) frag = false
    /\ (d = EmptyString \/ isSuffixOf (JS.str (preferredSeparatorFor s)) d).
Proof.
  destruct (split_last (preferredSeparatorFor s) s) as (d & frag & Hlast & Hs & Hfrag & Hd).
  exists d, frag. split_and!; try done.
  unfold new_Path. rewrite Hlast. do 2 f_equal.
  unfold JS.substring0. rewrite Hs at 1 2. rewrite length_app.
  replace (String.length d + String.length frag - String.length frag)
    with (String.length d) by lia.
  apply substring_app_l.
Qed.

Lemma new_Path_empty :
  new EmptyString
  = Ok (mkPath EmptyString EmptyString EmptyString (absolutify EmptyString)
          (preferredSeparatorFor EmptyString)).
Proof. reflexivity. Qed.

(** A string that ends with its own separator is all directory. *)
Lemma new_Path_trailing_sep (s : string) :
  isSuffixOf (JS.str (preferredSeparatorFor s)) s ->
  new s = Ok (mkPath s EmptyString s (absolutify s) (preferredSeparatorFor s)).
Proof.
  intros [e He]. unfold new_Path.
  destruct (split_trailing_sep (preferredSeparatorFor s) e) as (init & _ & Hinit).
  rewrite <- He in Hinit. rewrite Hinit, lastItem_snoc. do 2 f_equal.
  unfold JS.substring0. simpl. rewrite Nat.sub_0_r. apply substring_all.
Qed.

Lemma new_Path_returns (s : string) : returns (new s).
Proof.
  destruct (new_Path_fields s) as (d & frag & Hnew & _). by eexists.
Qed.

Lemma new_Path_full (s : string) (p : Path) : new s = Ok p -> full p = s.
Proof.
  destruct (new_Path_fields s) as (d & frag & -> & _). by intros [= <-].
Qed.

Lemma new_Path_sep (s : string) (p : Path) :
  new s = Ok p -> sep p = preferredSeparatorFor s.
Proof.
  destruct (new_Path_fields s) as (d & frag & -> & _). by intros [= <-].
Qed.

End Construction.

(** C1: for every string [s], [new Path(s)] returns a path whose
    [directory] followed by its [fragment] is [s]. *)
Theorem directory_fragment_full
    (preferredSeparatorFor : string -> ascii) (absolutify : string -> string)
    (s : string) :
  exists p, new_Path preferredSeparatorFor absolutify s = Ok p
            /\ directory p +:+ fragment p = s.
Proof.
  destruct (new_Path_fields preferredSeparatorFor absolutify s)
    as (d & frag & Hnew & Hs & _).
  eexists. split; [exact Hnew | by simpl].
Qed.

(** C7: the constructor returns for every string, the empty one included,
    and [new Path("")] has an empty [fragment] and an empty [directory]. *)
Theorem new_Path_total
    (preferredSeparatorFor : string -> ascii) (absolutify : string -> string) :
  (forall s : string, returns (new_Path preferredSeparatorFor absolutify s))
  /\ exists p, new_Path preferredSeparatorFor absolutify EmptyString = Ok p
               /\ fragment p = EmptyString /\ directory p = EmptyString.
Proof.
  split.
  - apply new_Path_returns.
  - eexists. split; [apply new_Path_empty | done].
Qed.

(** C8: the [fragment] of [new Path(s)] holds no occurrence of the
    separator of that path. *)
Theorem fragment_without_separator
    (preferredSeparatorFor : string -> ascii) (absolutify : string -> string)
    (s : string) :
  exists p, new_Path preferredSeparatorFor absolutify s = Ok p
            /\ sep p ∉ list_ascii_of_string (fragment p).
Proof.
  destruct (new_Path_fields preferredSeparatorFor absolutify s)
    as (d & frag & Hnew & _ & Hfrag & _).
  eexists. split; [exact Hnew|]. simpl.
  rewrite <- occurs_elem_of. by rewrite Hfrag.
Qed.

(** ** Shortcuts *)

(** C5: [hasShortcut(token)] holds exactly for a directory-form value whose
    [directory] ends with separator, token, separator or is the token
    followed by the separator; [":"] is a shortcut of ["/foo/bar/:/"] and
    of [":/"], not of ["/foo/bar:/"] nor of ["/blah/:"]. *)
Theorem hasShortcut_spec :
  (forall (p : Path) (token : string),
     hasShortcut p token = true <->
     isDirectoryForm p
     /\ (isSuffixOf (JS.str (sep p) +:+ token +:+ JS.str (sep p)) (directory p)
         \/ directory p = token +:+ JS.str (sep p)))
  /\ forall (nativeSep : ascii) (absolutify : string -> string),
       let new := new_Path (utils_preferredSeparatorFor nativeSep) absolutify in
       (exists p, new "/foo/bar/:/" = Ok p /\ hasShortcut p ":" = true)
       /\ (exists p, new ":/" = Ok p /\ hasShortcut p ":" = true)
       /\ (exists p, new "/foo/bar:/" = Ok p /\ hasShortcut p ":" = false)
       /\ (exists p, new "/blah/:" = Ok p /\ hasShortcut p ":" = false).
Proof.
  split.
  - intros p token. unfold hasShortcut, isDirectoryForm.
    rewrite andb_true_iff, orb_true_iff, negb_true_iff, truthy_false,
      endsWith_spec, String.eqb_eq.
    done.
  - intros nativeSep absolutify new. subst new.
    split_and!; eexists; (split; [reflexivity|]); reflexivity.
Qed.

(** ** The separator inferred for a path *)

(** Appending the separator of a string leaves the separator the same. *)
Lemma utils_preferredSeparatorFor_append (nativeSep : ascii) (s : string) :
  utils_preferredSeparatorFor nativeSep
    (s +:+ JS.str (utils_preferredSeparatorFor nativeSep s))
  = utils_preferredSeparatorFor nativeSep s.
Proof.
  unfold utils_preferredSeparatorFor. rewrite !occurs_app.
  destruct (occurs "/" s), (occurs "\" s); simpl; try done.
  destruct (Ascii.eqb_spec nativeSep "/") as [-> | Hf]; [done|].
  destruct (Ascii.eqb_spec nativeSep "\") as [-> | Hb]; done.
Qed.

(** A string keeps the separator of [x] when it holds that separator and no
    separator character beyond those of [x]. *)
Lemma utils_preferredSeparatorFor_preserved (nativeSep : ascii) (x y : string) :
  nativeSep = "/"%char \/ nativeSep = "\"%char ->
  (forall c, c = "/"%char \/ c = "\"%char ->
     occurs c y = true ->
     occurs c x = true \/ c = utils_preferredSeparatorFor nativeSep x) ->
  occurs (utils_preferredSeparatorFor nativeSep x) y = true ->
  utils_preferredSeparatorFor nativeSep y = utils_preferredSeparatorFor nativeSep x.
Proof.
  intros Hnative Hsub Hocc.
  pose proof (Hsub "/"%char (or_introl eq_refl)) as Hf.
  pose proof (Hsub "\"%char (or_intror eq_refl)) as Hb.
  unfold utils_preferredSeparatorFor in *.
  destruct (occurs "/" x), (occurs "\" x); simpl in *;
    destruct (occurs "/" y) eqn:Hfy, (occurs "\" y) eqn:Hby; simpl in *;
    try done;
    try (destruct Hf as [?|?]; done);
    try (destruct Hb as [?|?]; done);
    destruct Hnative as [-> | ->]; try done;
    try (destruct Hf as [?|?]; done);
    try (destruct Hb as [?|?]; done);
    congruence.
Qed.

(** ** [asDirectory] *)

Section AsDirectory.

Context (preferredSeparatorFor : string -> ascii) (absolutify : string -> string).

Local Abbreviation new := (new_Path preferredSeparatorFor absolutify).
Local Abbreviation asDir := (asDirectory preferredSeparatorFor absolutify).

(** The separator is stable under appending itself. *)
Hypothesis separator_stable :
  forall s, preferredSeparatorFor (s +:+ JS.str (preferredSeparatorFor s))
            = preferredSeparatorFor s.

(** [asDirectory] returns, and returns a value it maps to itself. *)
Lemma asDirectory_fixed (s : string) :
  exists p q,
    new s = Ok p /\ asDir p = Ok q
    /\ isDirectoryForm q /\ asDir q = Ok q.
Proof.
  destruct (new_Path_fields preferredSeparatorFor absolutify s)
    as (d & frag & Hnew & Hs & _).
  destruct frag as [|a frag].
  - rewrite app_empty_r in Hs. subst d.
    assert (asDir (mkPath s EmptyString s (absolutify s)
                           (preferredSeparatorFor s))
            = Ok (mkPath s EmptyString s (absolutify s)
                    (preferredSeparatorFor s))) as Hfix.
    { unfold asDirectory. simpl. by rewrite app_empty_r. }
    by do 2 eexists.
  - set (s' := s +:+ JS.str (preferredSeparatorFor s)).
    assert (isSuffixOf (JS.str (preferredSeparatorFor s')) s') as Hsuf.
    { subst s'. rewrite separator_stable. by eexists. }
    apply new_Path_trailing_sep with (absolutify := absolutify) in Hsuf.
    exists (mkPath d (String a frag) s (absolutify s) (preferredSeparatorFor s)),
      (mkPath s' EmptyString s' (absolutify s') (preferredSeparatorFor s')).
    split_and!; [done | exact Hsuf | done |].
    unfold asDirectory. simpl. by rewrite app_empty_r.
Qed.

End AsDirectory.

(** C9: [asDirectory()] is idempotent: it returns a directory-form value,
    and applied to that value it returns an equal one, with the same
    [full]. *)
Theorem asDirectory_idempotent (nativeSep : ascii) (absolutify : string -> string)
    (s : string) :
  let new := new_Path (utils_preferredSeparatorFor nativeSep) absolutify in
  let asDir := asDirectory (utils_preferredSeparatorFor nativeSep) absolutify in
  exists p q r,
    new s = Ok p /\ asDir p = Ok q /\ asDir q = Ok r
    /\ full r = full q /\ equals r q = true.
Proof.
  intros new asDir.
  destruct (asDirectory_fixed (utils_preferredSeparatorFor nativeSep) absolutify
              (utils_preferredSeparatorFor_append nativeSep) s)
    as (p & q & Hp & Hq & _ & Hr).
  exists p, q, q. split_and!; try done. apply String.eqb_refl.
Qed.

(** ** [parent] *)

Lemma dropWhile_subseteq (f : ascii -> bool) (l : list ascii) :
  Posix.dropWhile f l ⊆ l.
Proof.
  induction l as [|a l IH]; simpl; [done|].
  destruct (f a); set_solver.
Qed.

Lemma elem_of_rev (a : ascii) (l : list ascii) : a ∈ rev l <-> a ∈ l.
Proof. rewrite !list_elem_of_In. symmetry. apply in_rev. Qed.

Lemma slash_is_not_dot (c : ascii) :
  c = "/"%char \/ c = "\"%char -> occurs c "." = false.
Proof. by intros [-> | ->]. Qed.

Lemma only_slash_in_slashes (c : ascii) :
  c = "/"%char \/ c = "\"%char ->
  occurs c "/" = true \/ occurs c "//" = true -> c = "/"%char.
Proof. intros [-> | ->] [?|?]; done. Qed.

(** The POSIX [dirname] adds no separator. *)
Lemma posix_dirname_addsNoSeparator : addsNoSeparator Posix.dirname.
Proof.
  intros c x Hc. unfold Posix.dirname.
  rewrite <- (string_of_list_ascii_of_string x) at 2.
  destruct (list_ascii_of_string x) as [|c0 rest].
  { by rewrite slash_is_not_dot. }
  set (kept := Posix.dropWhile _ _).
  assert (kept ⊆ rest) as Hkept.
  { subst kept. etrans; [apply dropWhile_subseteq|].
    etrans; [apply dropWhile_subseteq|]. intros a. by rewrite elem_of_rev. }
  assert (forall r : string,
            Posix.isSlash c0 = true ->
            occurs c "/" = true \/ occurs c "//" = true ->
            occurs c (String c0 r) = true) as Hroot.
  { intros r ->%Ascii.eqb_eq Hocc.
    by rewrite (only_slash_in_slashes c Hc Hocc). }
  simpl string_of_list_ascii.
  destruct kept as [|a before].
  - destruct (Posix.isSlash c0) eqn:Hslash.
    + intros Hocc. apply Hroot; auto.
    + by rewrite slash_is_not_dot.
  - destruct (Posix.isSlash c0 && (length before =? 0)) eqn:Hdouble.
    + apply andb_true_iff in Hdouble as [Hslash _].
      intros Hocc. apply Hroot; auto.
    + rewrite !occurs_elem_of. simpl.
      rewrite !list_ascii_of_string_of_list_ascii, !elem_of_cons, elem_of_rev.
      intros [-> | Hin]; [by left | right].
      apply Hkept. by right.
Qed.

Section Parent.

Context (nativeSep : ascii) (absolutify dirname : string -> string).

Local Abbreviation separatorOf := (utils_preferredSeparatorFor nativeSep).
Local Abbreviation new := (new_Path separatorOf absolutify).
Local Abbreviation parentOf := (parent separatorOf absolutify dirname).

Hypothesis native_separator : nativeSep = "/"%char \/ nativeSep = "\"%char.
Hypothesis dirname_adds_none : addsNoSeparator dirname.

(** A string built from the separator characters of [x] that ends with the
    separator of [x] makes a directory-form path. *)
Lemma new_Path_same_separator (x y : string) :
  (forall c, c = "/"%char \/ c = "\"%char ->
     occurs c y = true -> occurs c x = true \/ c = separatorOf x) ->
  isSuffixOf (JS.str (separatorOf x)) y ->
  exists q, new y = Ok q /\ isDirectoryForm q.
Proof.
  intros Hsub Hsuf.
  assert (separatorOf y = separatorOf x) as Hsep.
  { apply utils_preferredSeparatorFor_preserved; [done.. |].
    destruct Hsuf as [e ->]. rewrite occurs_app. simpl.
    by rewrite Ascii.eqb_refl, orb_true_r. }
  rewrite <- Hsep in Hsuf.
  apply new_Path_trailing_sep with (absolutify := absolutify) in Hsuf.
  by eexists.
Qed.

(** Away from the root, [parent] returns a directory-form path. *)
Lemma parent_directory_form (s : string) (p : Path) :
  new s = Ok p ->
  isRoot dirname p = false ->
  exists q, parentOf p = Ok q /\ isDirectoryForm q.
Proof.
  destruct (new_Path_fields separatorOf absolutify s)
    as (d & frag & -> & Hs & _ & Hd).
  intros [= <-] Hroot. unfold parent. rewrite Hroot. simpl.
  destruct frag as [|a frag]; simpl.
  - rewrite app_empty_r in Hs. subst d.
    set (newFull := if negb _ then _ else _).
    apply (new_Path_same_separator s).
    + intros c Hc. subst newFull.
      destruct (JS.endsWith _ _); simpl; [|rewrite occurs_app; simpl].
      * intros Hocc. left. by apply dirname_adds_none.
      * rewrite orb_false_r.
        intros [Hocc | Hocc%Ascii.eqb_eq]%orb_true_iff; [left | by right].
        by apply dirname_adds_none.
    + subst newFull.
      destruct (JS.endsWith _ _) eqn:Hends; simpl; [|by eexists].
      by apply endsWith_spec.
  - destruct Hd as [-> | Hd].
    + eexists. split; [apply new_Path_empty | done].
    + apply (new_Path_same_separator s); [|done].
      intros c _ Hocc. left. by rewrite Hs, occurs_app, Hocc.
Qed.

End Parent.

(** C4, amended: a root is its own [parent]; away from the root the result
    of [parent()] is a directory-form path; and the parent of ["/a/b/"],
    which is no root, is the path of ["/a/"].  The host's native separator
    is one of the two separators and its [dirname] adds none. *)
Theorem parent_policy (nativeSep : ascii) (absolutify dirname : string -> string) :
  let new := new_Path (utils_preferredSeparatorFor nativeSep) absolutify in
  let parentOf := parent (utils_preferredSeparatorFor nativeSep) absolutify dirname in
  nativeSep = "/"%char \/ nativeSep = "\"%char ->
  addsNoSeparator dirname ->
  dirname "/a/b/" = "/a" ->
  dirname (absolutify "/a/b/") <> absolutify "/a/b/" ->
  (forall s, exists p,
     new s = Ok p
     /\ (isRoot dirname p = true -> parentOf p = Ok p)
     /\ (isRoot dirname p = false ->
         exists q, parentOf p = Ok q /\ isDirectoryForm q))
  /\ exists p q,
       new "/a/b/" = Ok p /\ parentOf p = Ok q
       /\ full q = "/a/" /\ new "/a/" = Ok q.
Proof.
  intros new parentOf Hnative Hadds Hdir Hroot. split.
  - intros s.
    destruct (new_Path_fields (utils_preferredSeparatorFor nativeSep) absolutify s)
      as (d & frag & Hnew & _).
    eexists. split_and!; [exact Hnew | |].
    + intros His. subst parentOf. unfold parent. by rewrite His.
    + by apply parent_directory_form with (s := s).
  - exists (mkPath "/a/b/" "" "/a/b/" (absolutify "/a/b/") "/"),
      (mkPath "/a/" "" "/a/" (absolutify "/a/") "/").
    split_and!; [reflexivity | | reflexivity | reflexivity].
    subst parentOf. unfold parent, isRoot.
    cbn [absolute directory fragment sep JS.truthy].
    apply String.eqb_neq in Hroot. rewrite Hroot, Hdir. reflexivity.
Qed.

Lemma parent_policy_witness :
  let new := new_Path (utils_preferredSeparatorFor Posix.nativeSep)
               (Posix.absolutify "/home/user") in
  let parentOf := parent (utils_preferredSeparatorFor Posix.nativeSep)
                  (Posix.absolutify "/home/user") Posix.dirname in
  (forall s, exists p,
     new s = Ok p
     /\ (isRoot Posix.dirname p = true -> parentOf p = Ok p)
     /\ (isRoot Posix.dirname p = false ->
         exists q, parentOf p = Ok q /\ isDirectoryForm q))
  /\ exists p q,
       new "/a/b/" = Ok p /\ parentOf p = Ok q
       /\ full q = "/a/" /\ new "/a/" = Ok q.
Proof.
  apply (parent_policy Posix.nativeSep (Posix.absolutify "/home/user") Posix.dirname).
  - left. reflexivity.
  - exact posix_dirname_addsNoSeparator.
  - reflexivity.
  - vm_compute. discriminate.
Defined.

(** C4 as stated fails at the root: on a POSIX host ["/.."] resolves to the
    root, so [parent()] returns the value itself, whose fragment is [".."]. *)
Lemma parent_of_root_keeps_fragment :
  let new := new_Path (utils_preferredSeparatorFor Posix.nativeSep)
               (Posix.absolutify "/home/user") in
  let parentOf := parent (utils_preferredSeparatorFor Posix.nativeSep)
                  (Posix.absolutify "/home/user") Posix.dirname in
  exists p,
    new "/.." = Ok p /\ isRoot Posix.dirname p = true
    /\ parentOf p = Ok p /\ fragment p = ".." /\ ~ isDirectoryForm p.
Proof.
  eexists. split_and!; [reflexivity | reflexivity | reflexivity | reflexivity |].
  unfold isDirectoryForm. simpl. discriminate.
Qed.

(** ** [commonPrefix] on the store *)

Section CommonPrefixStore.

Context (preferredSeparatorFor : string -> ascii) (absolutify : string -> string).

Local Abbreviation commonPrefixOn :=
  (commonPrefix preferredSeparatorFor absolutify).

(** Fewer than two items: the call throws and the store is as before. *)
Lemma commonPrefix_short (h : store) (paths : ref) (a : array) (cs : bool) :
  h !! paths = Some a ->
  array_length a < 2 ->
  commonPrefixOn paths cs h = (Throw (Error commonPrefix_message), h).
Proof.
  intros Hpaths Hlen. unfold commonPrefix. rewrite Hpaths.
  by destruct (Nat.ltb_spec (array_length a) 2); [|lia].
Qed.

(** Two items or more: the result is computed from the sorted [full]
    strings, which live in a new cell of the store. *)
Lemma commonPrefix_run (h : store) (paths : ref) (items : list Path) (cs : bool) :
  h !! paths = Some (PathArray items) ->
  2 <= length items ->
  commonPrefixOn paths cs h
  = (commonPrefix_of_sorted preferredSeparatorFor absolutify
       (JSArray.sorted (map full items)) cs,
     <[fresh (dom h) := StringArray (JSArray.sorted (map full items))]> h).
Proof.
  intros Hpaths Hlen. unfold commonPrefix. rewrite Hpaths. simpl.
  destruct (Nat.ltb_spec (length items) 2); [lia|].
  unfold JSArray.map_full, JSArray.alloc, JSArray.sort.
  rewrite Hpaths, lookup_insert_eq, insert_insert_eq, lookup_insert_eq.
  done.
Qed.

(** Whatever the array, the cells of the store keep their contents. *)
Lemma commonPrefix_frame (h : store) (paths : ref) (cs : bool) (r : ref) (a : array) :
  h !! r = Some a ->
  (commonPrefixOn paths cs h).2 !! r = Some a.
Proof.
  intros Hr. unfold commonPrefix.
  destruct (h !! paths) as [b|] eqn:Hpaths; [|done].
  destruct (array_length b <? 2); [done|].
  unfold JSArray.map_full, JSArray.alloc, JSArray.sort. rewrite Hpaths.
  destruct b as [items|items]; [|done].
  rewrite lookup_insert_eq, insert_insert_eq, lookup_insert_eq. simpl.
  rewrite lookup_insert_ne; [done|].
  intros <-. apply (is_fresh (dom h)). apply elem_of_dom. by eexists.
Qed.

End CommonPrefixStore.

(** ** The sorted array *)

Lemma insert_Permutation (x : string) (l : list string) :
  JSArray.insert x l ≡ₚ x :: l.
Proof.
  induction l as [|y l IH]; simpl; [done|].
  destruct (String.leb x y); [done|].
  rewrite IH. apply Permutation_swap.
Qed.

Lemma sorted_Permutation (l : list string) : JSArray.sorted l ≡ₚ l.
Proof.
  induction l as [|x l IH]; simpl; [done|].
  by rewrite insert_Permutation, IH.
Qed.

Lemma sorted_length (l : list string) : length (JSArray.sorted l) = length l.
Proof. by rewrite sorted_Permutation. Qed.

(** On an array that is not empty the statements after the sort return. *)
Lemma commonPrefix_of_sorted_returns
    (preferredSeparatorFor : string -> ascii) (absolutify : string -> string)
    (l : list string) (cs : bool) :
  0 < length l ->
  exists first last,
    l !! 0 = Some first /\ JS.lastItem l = Some last
    /\ commonPrefix_of_sorted preferredSeparatorFor absolutify l cs
       = new_Path preferredSeparatorFor absolutify
           (commonPrefix_loop first last cs
              (Nat.min (String.length first) (String.length last)) 0 EmptyString).
Proof.
  intros Hlen. unfold commonPrefix_of_sorted, JS.lastItem.
  destruct (lookup_lt_is_Some_2 l 0 Hlen) as [first ->].
  destruct (lookup_lt_is_Some_2 l (length l - 1)) as [last ->]; [lia|].
  by exists first, last.
Qed.

(** C3: [commonPrefix] throws exactly when the array has fewer than two
    paths; it then throws the error of its first statement, and with two
    paths or more it returns a path. *)
Theorem commonPrefix_throws_iff_short
    (preferredSeparatorFor : string -> ascii) (absolutify : string -> string)
    (h : store) (paths : ref) (items : list Path) (caseSensitive : bool) :
  h !! paths = Some (PathArray items) ->
  let outcome :=
    (commonPrefix preferredSeparatorFor absolutify paths caseSensitive h).1 in
  (throws outcome <-> length items < 2)
  /\ (length items < 2 -> outcome = Throw (Error commonPrefix_message))
  /\ (2 <= length items -> returns outcome).
Proof.
  intros Hpaths outcome.
  assert (length items < 2 -> outcome = Throw (Error commonPrefix_message)) as Hshort.
  { intros Hlen. subst outcome.
    by rewrite (commonPrefix_short _ _ h paths (PathArray items)). }
  assert (2 <= length items -> returns outcome) as Hlong.
  { intros Hlen. subst outcome. rewrite (commonPrefix_run _ _ h paths items) by done.
    simpl.
    destruct (commonPrefix_of_sorted_returns preferredSeparatorFor absolutify
                (JSArray.sorted (map full items)) caseSensitive)
      as (first & last & _ & _ & ->).
    { rewrite sorted_length, length_map. lia. }
    apply new_Path_returns. }
  split_and!; [|done..]. split.
  - intros [e He]. destruct (Nat.lt_ge_cases (length items) 2) as [|Hge]; [done|].
    destruct (Hlong Hge) as [p Hp]. congruence.
  - intros Hlen. rewrite Hshort by done. by eexists.
Qed.

(** C10: [commonPrefix] leaves the caller's array as it was, items and
    order, and every other array of the store too: the sort works on the
    array that [map] made. *)
Theorem commonPrefix_keeps_input
    (preferredSeparatorFor : string -> ascii) (absolutify : string -> string)
    (h : store) (paths : ref) (items : list Path) (caseSensitive : bool) :
  h !! paths = Some (PathArray items) ->
  let after :=
    (commonPrefix preferredSeparatorFor absolutify paths caseSensitive h).2 in
  after !! paths = Some (PathArray items)
  /\ forall r a, h !! r = Some a -> after !! r = Some a.
Proof.
  intros Hpaths after. split.
  - by apply commonPrefix_frame.
  - intros r a. apply commonPrefix_frame.
Qed.

Lemma commonPrefix_throws_iff_short_witness :
  let separatorOf := utils_preferredSeparatorFor Posix.nativeSep in
  let absolutify := Posix.absolutify "/home/user" in
  let items := [mkPath "/" "abc" "/abc" "/abc" "/"; mkPath "/" "abd" "/abd" "/abd" "/"] in
  let outcome :=
    (commonPrefix separatorOf absolutify 7 false {[ 7 := PathArray items ]}).1 in
  (throws outcome <-> length items < 2)
  /\ (length items < 2 -> outcome = Throw (Error commonPrefix_message))
  /\ (2 <= length items -> returns outcome).
Proof.
  intros separatorOf absolutify items.
  apply (commonPrefix_throws_iff_short separatorOf absolutify
           {[ 7 := PathArray items ]} 7 items false).
  reflexivity.
Defined.

Lemma commonPrefix_keeps_input_witness :
  let separatorOf := utils_preferredSeparatorFor Posix.nativeSep in
  let absolutify := Posix.absolutify "/home/user" in
  let items := [mkPath "/" "b" "/b" "/b" "/"; mkPath "/" "a" "/a" "/a" "/"] in
  let h : store := {[ 3 := PathArray items ]} in
  let after := (commonPrefix separatorOf absolutify 3 false h).2 in
  after !! 3 = Some (PathArray items)
  /\ forall r a, h !! r = Some a -> after !! r = Some a.
Proof.
  intros separatorOf absolutify items h.
  apply (commonPrefix_keeps_input separatorOf absolutify h 3 items false).
  reflexivity.
Defined.

(** ** The order of the sort *)

Lemma ascii_compare_refl (a : ascii) : Ascii.compare a a = Eq.
Proof. unfold Ascii.compare. apply N.compare_refl. Qed.

Lemma ascii_compare_trans (a b c : ascii) :
  Ascii.compare a b = Lt -> Ascii.compare b c = Lt -> Ascii.compare a c = Lt.
Proof.
  unfold Ascii.compare. rewrite !N.compare_lt_iff. apply N.lt_trans.
Qed.

Lemma ascii_compare_asym (a b : ascii) :
  Ascii.compare a b = Lt -> Ascii.compare b a = Lt -> False.
Proof.
  unfold Ascii.compare. rewrite !N.compare_lt_iff. intros H1 H2.
  exact (N.lt_asymm _ _ H1 H2).
Qed.

(** Two strings compare by their first characters, then by the rest. *)
Lemma str_le_cons (x y : ascii) (a b : string) :
  str_le (String x a) (String y b)
  <-> Ascii.compare x y = Lt \/ (x = y /\ str_le a b).
Proof.
  unfold str_le, String.leb. simpl.
  destruct (Ascii.compare x y) eqn:Hxy.
  - apply Ascii.compare_eq_iff in Hxy as ->. split; [by right | by intros [?|[_ ?]]].
  - split; [by left | done].
  - split; [done|]. intros [?|[-> _]]; [done|].
    by rewrite ascii_compare_refl in Hxy.
Qed.

Lemma str_le_nil_l (b : string) : str_le EmptyString b.
Proof. by destruct b. Qed.

Lemma str_le_nil_r (a : string) : str_le a EmptyString -> a = EmptyString.
Proof. by destruct a. Qed.

Lemma str_le_refl (a : string) : str_le a a.
Proof.
  induction a as [|x a IH]; [done|]. apply str_le_cons. by right.
Qed.

Lemma str_le_trans (a b c : string) : str_le a b -> str_le b c -> str_le a c.
Proof.
  revert b c. induction a as [|x a IH]; intros b c Hab Hbc.
  - apply str_le_nil_l.
  - destruct b as [|y b]; [by apply str_le_nil_r in Hab|].
    destruct c as [|z c]; [by apply str_le_nil_r in Hbc|].
    apply str_le_cons in Hab, Hbc. apply str_le_cons.
    destruct Hab as [Hxy | [-> Hab]], Hbc as [Hyz | [-> Hbc]]; eauto.
    left. by apply ascii_compare_trans with y.
Qed.

Lemma str_le_total (a b : string) : str_le a b \/ str_le b a.
Proof. apply String.leb_total. Qed.

Lemma insert_sorted (x : string) (l : list string) :
  StronglySorted str_le l -> StronglySorted str_le (JSArray.insert x l).
Proof.
  induction 1 as [|y l Hl IH Hy]; simpl; [by repeat constructor|].
  destruct (String.leb x y) eqn:Hxy.
  - constructor; [by constructor|]. constructor; [done|].
    eapply Forall_impl; [exact Hy|]. intros z. by apply str_le_trans.
  - constructor; [done|]. rewrite insert_Permutation. constructor; [|done].
    destruct (str_le_total x y) as [Hle|Hle]; [|done].
    unfold str_le in Hle. congruence.
Qed.

Lemma sorted_StronglySorted (l : list string) :
  StronglySorted str_le (JSArray.sorted l).
Proof.
  induction l as [|x l IH]; simpl; [constructor | by apply insert_sorted].
Qed.

(** The first string of the sorted array is below every string of the
    array, the last one above. *)
Lemma sorted_extremes (l : list string) (first last x : string) :
  JSArray.sorted l !! 0 = Some first ->
  JS.lastItem (JSArray.sorted l) = Some last ->
  x ∈ l ->
  str_le first x /\ str_le x last.
Proof.
  intros Hfirst Hlast Hx.
  pose proof (sorted_StronglySorted l) as Hsorted.
  rewrite <- sorted_Permutation in Hx.
  split.
  - destruct (JSArray.sorted l) as [|y l']; [done|].
    injection Hfirst as ->. apply StronglySorted_inv in Hsorted as [_ Hall].
    apply elem_of_cons in Hx as [-> | Hx]; [apply str_le_refl|].
    by eapply Forall_forall in Hall.
  - unfold JS.lastItem in Hlast. rewrite Nat.sub_1_r, <- last_lookup in Hlast.
    apply last_Some in Hlast as [init Hinit]. rewrite Hinit in Hsorted, Hx.
    apply elem_of_app in Hx as [Hx | Hx].
    + eapply StronglySorted_app_1_elem_of; [exact Hsorted | exact Hx |].
      apply list_elem_of_singleton. done.
    + apply list_elem_of_singleton in Hx as ->. apply str_le_refl.
Qed.

Lemma sorted_extremes_elem_of (l : list string) (first last : string) :
  JSArray.sorted l !! 0 = Some first ->
  JS.lastItem (JSArray.sorted l) = Some last ->
  first ∈ l /\ last ∈ l.
Proof.
  intros Hfirst Hlast. rewrite <- !(sorted_Permutation l). split.
  - by eapply list_elem_of_lookup_2.
  - by eapply list_elem_of_lookup_2.
Qed.

(** ** The loop *)

Lemma get_app_length (pre : string) (x : ascii) (a : string) :
  String.get (String.length pre) (pre +:+ String x a) = Some x.
Proof. induction pre as [|c pre IH]; str_simpl; done. Qed.

Lemma app_str_cons (pre : string) (x : ascii) (a : string) :
  pre +:+ String x a = (pre +:+ JS.str x) +:+ a.
Proof. by rewrite app_assoc_str. Qed.

Lemma length_app_str (pre : string) (x : ascii) :
  String.length (pre +:+ JS.str x) = S (String.length pre).
Proof. rewrite length_app. simpl. lia. Qed.

(** The loop started at index [k], after [k] characters of each string,
    appends what [sharedPrefix] reads off the rest. *)
Lemma commonPrefix_loop_from (cs : bool) (a b pre1 pre2 acc : string) :
  String.length pre1 = String.length pre2 ->
  commonPrefix_loop (pre1 +:+ a) (pre2 +:+ b) cs
    (Nat.min (String.length a) (String.length b)) (String.length pre1) acc
  = acc +:+ sharedPrefix cs a b.
Proof.
  revert b pre1 pre2 acc.
  induction a as [|x a IH]; intros b pre1 pre2 acc Hlen; simpl.
  { by rewrite app_empty_r. }
  destruct b as [|y b]; simpl.
  { by rewrite app_empty_r. }
  rewrite get_app_length, Hlen, get_app_length, <- Hlen.
  rewrite (app_str_cons pre1), (app_str_cons pre2).
  destruct (Ascii.eqb x y) eqn:Hxy.
  - rewrite <- (length_app_str pre1 x), IH; [by rewrite app_assoc_str|].
    by rewrite !length_app_str, Hlen.
  - destruct (negb cs && _); [|by rewrite app_empty_r].
    rewrite <- (length_app_str pre1 x), IH; [by rewrite app_assoc_str|].
    by rewrite !length_app_str, Hlen.
Qed.

Lemma commonPrefix_loop_sharedPrefix (cs : bool) (a b : string) :
  commonPrefix_loop a b cs (Nat.min (String.length a) (String.length b)) 0
    EmptyString
  = sharedPrefix cs a b.
Proof. exact (commonPrefix_loop_from cs a b EmptyString EmptyString EmptyString eq_refl). Qed.

(** ** Prefixes *)

Lemma isPrefixOf_nil (s : string) : isPrefixOf EmptyString s.
Proof. by exists s. Qed.

Lemma isPrefixOf_cons (x y : ascii) (p s : string) :
  isPrefixOf (String x p) (String y s) <-> x = y /\ isPrefixOf p s.
Proof.
  unfold isPrefixOf. split.
  - intros [r Hr]. rewrite app_cons_str in Hr. injection Hr as -> ->. eauto.
  - intros [-> [r ->]]. by exists r.
Qed.

Lemma isPrefixOf_of_nil (p : string) : isPrefixOf p EmptyString -> p = EmptyString.
Proof. intros [r Hr]. by destruct p. Qed.

(** With case distinguished, [sharedPrefix] is the longest prefix two
    strings have in common. *)
Lemma sharedPrefix_prefix (a b : string) :
  isPrefixOf (sharedPrefix true a b) a /\ isPrefixOf (sharedPrefix true a b) b.
Proof.
  revert b. induction a as [|x a IH]; intros b; simpl.
  { split; apply isPrefixOf_nil. }
  destruct b as [|y b]; [split; apply isPrefixOf_nil|].
  destruct (Ascii.eqb_spec x y) as [-> | Hne]; simpl.
  - rewrite !isPrefixOf_cons. destruct (IH b). done.
  - split; apply isPrefixOf_nil.
Qed.

Lemma sharedPrefix_longest (a b q : string) :
  isPrefixOf q a -> isPrefixOf q b -> isPrefixOf q (sharedPrefix true a b).
Proof.
  revert a b. induction q as [|z q IH]; intros a b Ha Hb.
  { apply isPrefixOf_nil. }
  destruct a as [|x a]; [by apply isPrefixOf_of_nil in Ha|].
  destruct b as [|y b]; [by apply isPrefixOf_of_nil in Hb|].
  apply isPrefixOf_cons in Ha as [-> Ha]. apply isPrefixOf_cons in Hb as [-> Hb].
  simpl. rewrite Ascii.eqb_refl. apply isPrefixOf_cons. auto.
Qed.

(** A prefix of two strings starts every string between them. *)
Lemma isPrefixOf_between (p a x c : string) :
  isPrefixOf p a -> isPrefixOf p c -> str_le a x -> str_le x c ->
  isPrefixOf p x.
Proof.
  revert a x c. induction p as [|z p IH]; intros a x c Ha Hc Hax Hxc.
  { apply isPrefixOf_nil. }
  destruct a as [|y a]; [by apply isPrefixOf_of_nil in Ha|].
  destruct c as [|w c]; [by apply isPrefixOf_of_nil in Hc|].
  apply isPrefixOf_cons in Ha as [-> Ha]. apply isPrefixOf_cons in Hc as [-> Hc].
  destruct x as [|v x]; [by apply str_le_nil_r in Hax|].
  apply str_le_cons in Hax, Hxc. apply isPrefixOf_cons.
  destruct Hax as [Hlt | [-> Hax]], Hxc as [Hlt' | [Heq Hxc]].
  - by destruct (ascii_compare_asym _ _ Hlt Hlt').
  - subst. by rewrite ascii_compare_refl in Hlt.
  - by rewrite ascii_compare_refl in Hlt'.
  - eauto.
Qed.

(** ** What [commonPrefix] returns *)

(** With two paths or more, the result is built from the prefix that the
    smallest and the largest [full] string share. *)
Lemma commonPrefix_extremes
    (preferredSeparatorFor : string -> ascii) (absolutify : string -> string)
    (h : store) (paths : ref) (items : list Path) (cs : bool) :
  h !! paths = Some (PathArray items) ->
  2 <= length items ->
  exists first last p,
    JSArray.sorted (map full items) !! 0 = Some first
    /\ JS.lastItem (JSArray.sorted (map full items)) = Some last
    /\ (commonPrefix preferredSeparatorFor absolutify paths cs h).1 = Ok p
    /\ full p = sharedPrefix cs first last.
Proof.
  intros Hpaths Hlen. rewrite (commonPrefix_run _ _ h paths items) by done. simpl.
  destruct (commonPrefix_of_sorted_returns preferredSeparatorFor absolutify
              (JSArray.sorted (map full items)) cs)
    as (first & last & Hfirst & Hlast & ->).
  { rewrite sorted_length, length_map. lia. }
  rewrite commonPrefix_loop_sharedPrefix.
  destruct (new_Path_returns preferredSeparatorFor absolutify
              (sharedPrefix cs first last)) as [p Hp].
  exists first, last, p. split_and!; try done.
  by apply new_Path_full in Hp.
Qed.

(** X14: With case distinguished, the result is the longest common prefix of
    all the paths. *)
Theorem commonPrefix_caseSensitive_longest
    (preferredSeparatorFor : string -> ascii) (absolutify : string -> string)
    (h : store) (paths : ref) (items : list Path) :
  h !! paths = Some (PathArray items) ->
  2 <= length items ->
  exists p,
    (commonPrefix preferredSeparatorFor absolutify paths true h).1 = Ok p
    /\ longestCommonPrefixOf (full p) (map full items).
Proof.
  intros Hpaths Hlen.
  destruct (commonPrefix_extremes preferredSeparatorFor absolutify h paths items
              true Hpaths Hlen)
    as (first & last & p & Hfirst & Hlast & Hp & Hfull).
  exists p. split; [done|]. rewrite Hfull.
  destruct (sharedPrefix_prefix first last) as [Hpre_first Hpre_last].
  split.
  - apply Forall_forall. intros x Hx.
    destruct (sorted_extremes _ _ _ x Hfirst Hlast Hx) as [Hle Hge].
    by apply isPrefixOf_between with first last.
  - intros q Hq.
    destruct (sorted_extremes_elem_of _ _ _ Hfirst Hlast) as [Hin_first Hin_last].
    apply sharedPrefix_longest.
    + by eapply Forall_forall in Hq.
    + by eapply Forall_forall in Hq.
Qed.

Lemma commonPrefix_caseSensitive_longest_witness :
  let separatorOf := utils_preferredSeparatorFor Posix.nativeSep in
  let absolutify := Posix.absolutify "/home/user" in
  let items := [mkPath "/" "abd" "/abd" "/abd" "/"; mkPath "/" "abc" "/abc" "/abc" "/";
                mkPath "/" "ab" "/ab" "/ab" "/"] in
  exists p,
    (commonPrefix separatorOf absolutify 1 true {[ 1 := PathArray items ]}).1 = Ok p
    /\ longestCommonPrefixOf (full p) (map full items).
Proof.
  intros separatorOf absolutify items.
  apply (commonPrefix_caseSensitive_longest separatorOf absolutify
           {[ 1 := PathArray items ]} 1 items).
  - reflexivity.
  - simpl. lia.
Defined.

(** ** Case ignored *)

Lemma toLowerCase_char_idemp (c : ascii) :
  JS.toLowerCase_char (JS.toLowerCase_char c) = JS.toLowerCase_char c.
Proof. by destruct c as [[] [] [] [] [] [] [] []]. Qed.

Lemma toLowerCase_app (s t : string) :
  JS.toLowerCase (s +:+ t) = JS.toLowerCase s +:+ JS.toLowerCase t.
Proof. induction s as [|c s IH]; str_simpl; congruence. Qed.

(** In lower case, [sharedPrefix] with case ignored is the longest common
    prefix of the two strings in lower case. *)
Lemma sharedPrefix_toLowerCase (a b : string) :
  JS.toLowerCase (sharedPrefix false a b)
  = sharedPrefix true (JS.toLowerCase a) (JS.toLowerCase b).
Proof.
  revert b. induction a as [|x a IH]; intros b; simpl; [done|].
  destruct b as [|y b]; simpl; [done|].
  destruct (Ascii.eqb_spec x y) as [-> | Hne]; simpl.
  - by rewrite Ascii.eqb_refl, IH.
  - destruct (Ascii.eqb _ _); simpl; [|done].
    by rewrite toLowerCase_char_idemp, IH.
Qed.

Lemma sharedPrefix_ci_longest (a b : string) :
  longestCommonPrefixOf_ci (sharedPrefix false a b) [a; b].
Proof.
  unfold longestCommonPrefixOf_ci, commonPrefixOf_ci, isPrefixOf_ci.
  rewrite sharedPrefix_toLowerCase.
  destruct (sharedPrefix_prefix (JS.toLowerCase a) (JS.toLowerCase b)) as [Ha Hb].
  split; [by repeat constructor|].
  intros q Hq. inversion_clear Hq as [|?? Hqa Hq']. inversion_clear Hq' as [|?? Hqb _].
  by apply sharedPrefix_longest.
Qed.

Lemma longestCommonPrefixOf_ci_swap (p a b : string) :
  longestCommonPrefixOf_ci p [a; b] -> longestCommonPrefixOf_ci p [b; a].
Proof.
  unfold longestCommonPrefixOf_ci, commonPrefixOf_ci.
  intros [Hp Hq]. split.
  - inversion_clear Hp as [|?? Ha Hp']. inversion_clear Hp' as [|?? Hb _].
    by repeat constructor.
  - intros q Hall. apply Hq.
    inversion_clear Hall as [|?? Hb Hall']. inversion_clear Hall' as [|?? Ha _].
    by repeat constructor.
Qed.

(** X15: With case ignored and two paths, the result is their longest common
    prefix up to case. *)
Theorem commonPrefix_two_paths
    (preferredSeparatorFor : string -> ascii) (absolutify : string -> string)
    (h : store) (paths : ref) (a b : Path) :
  h !! paths = Some (PathArray [a; b]) ->
  exists p,
    (commonPrefix preferredSeparatorFor absolutify paths false h).1 = Ok p
    /\ longestCommonPrefixOf_ci (full p) [full a; full b].
Proof.
  intros Hpaths.
  destruct (commonPrefix_extremes preferredSeparatorFor absolutify h paths [a; b]
              false Hpaths)
    as (first & last & p & Hfirst & Hlast & Hp & Hfull); [simpl; lia|].
  exists p. split; [done|]. rewrite Hfull. simpl in Hfirst, Hlast.
  destruct (String.leb (full a) (full b));
    injection Hfirst as <-; injection Hlast as <-.
  - apply sharedPrefix_ci_longest.
  - apply longestCommonPrefixOf_ci_swap, sharedPrefix_ci_longest.
Qed.

Lemma commonPrefix_two_paths_witness :
  let separatorOf := utils_preferredSeparatorFor Posix.nativeSep in
  let absolutify := Posix.absolutify "/home/user" in
  let a := mkPath "/Foo/Bar/" "baz" "/Foo/Bar/baz" "/Foo/Bar/baz" "/" in
  let b := mkPath "/foo/bar/" "qux" "/foo/bar/qux" "/foo/bar/qux" "/" in
  exists p,
    (commonPrefix separatorOf absolutify 0 false {[ 0 := PathArray [a; b] ]}).1 = Ok p
    /\ longestCommonPrefixOf_ci (full p) [full a; full b].
Proof.
  intros separatorOf absolutify a b.
  apply (commonPrefix_two_paths separatorOf absolutify {[ 0 := PathArray [a; b] ]} 0 a b).
  reflexivity.
Defined.

(** The two scenarios of the specification, case ignored. *)
Lemma commonPrefix_scenarios :
  let separatorOf := utils_preferredSeparatorFor Posix.nativeSep in
  let absolutify := Posix.absolutify "/home/user" in
  let new := new_Path separatorOf absolutify in
  (exists a b p,
     new "/Foo/Bar/baz" = Ok a /\ new "/foo/bar/qux" = Ok b
     /\ (commonPrefix separatorOf absolutify 0 false {[ 0 := PathArray [a; b] ]}).1
        = Ok p
     /\ full p = "/foo/bar/")
  /\ (exists a b p,
        new "/abc" = Ok a /\ new "/abd" = Ok b
        /\ (commonPrefix separatorOf absolutify 0 false {[ 0 := PathArray [a; b] ]}).1
           = Ok p
        /\ full p = "/ab").
Proof.
  split; do 3 eexists; (split_and!; [reflexivity | reflexivity | |]);
    [vm_compute; reflexivity | reflexivity | vm_compute; reflexivity | reflexivity].
Qed.

(** C2, at a failing input: for the paths of ["/Ab"], ["/B"] and ["/ab"],
    case ignored, [commonPrefix] returns the path of ["/ab"].  That string
    does not start ["/B"], not even up to case; the longest prefix the
    three have in common up to case is ["/"].  The sort orders by code
    units, so ["/B"] lies between the two strings that are compared. *)
Theorem commonPrefix_three_paths :
  let separatorOf := utils_preferredSeparatorFor Posix.nativeSep in
  let absolutify := Posix.absolutify "/home/user" in
  let new := new_Path separatorOf absolutify in
  exists a b c p,
    new "/Ab" = Ok a /\ new "/B" = Ok b /\ new "/ab" = Ok c
    /\ (commonPrefix separatorOf absolutify 0 false
          {[ 0 := PathArray [a; b; c] ]}).1 = Ok p
    /\ full p = "/ab"
    /\ ~ isPrefixOf_ci (full p) (full b)
    /\ longestCommonPrefixOf_ci "/" [full a; full b; full c].
Proof.
  do 4 eexists.
  split_and!; [reflexivity | reflexivity | reflexivity | vm_compute; reflexivity
              | reflexivity | |].
  - intros [r Hr]. vm_compute in Hr. discriminate.
  - split.
    + repeat constructor; eexists; reflexivity.
    + intros q Hq. inversion_clear Hq as [|?? Ha Hq']. inversion_clear Hq' as [|?? Hb _].
      exact (sharedPrefix_longest _ _ _ Ha Hb).
Qed.

(** * Further properties *)

(** ** The decomposition *)

(** X1: The [directory] of a path is empty or ends with the separator of the
    path. *)
Theorem directory_ends_with_separator
    (preferredSeparatorFor : string -> ascii) (absolutify : string -> string)
    (s : string) :
  exists p, new_Path preferredSeparatorFor absolutify s = Ok p
            /\ (directory p = EmptyString
                \/ isSuffixOf (JS.str (sep p)) (directory p)).
Proof.
  destruct (new_Path_fields preferredSeparatorFor absolutify s)
    as (d & frag & Hnew & _ & _ & Hd).
  eexists. split; [exact Hnew | exact Hd].
Qed.

Lemma occurs_suffix (c : ascii) (d : string) :
  isSuffixOf (JS.str c) d -> occurs c d = true.
Proof.
  intros [e ->]. rewrite occurs_app. simpl.
  by rewrite Ascii.eqb_refl, orb_true_r.
Qed.

(** X2: The [directory] is empty exactly when the separator does not occur in
    the string, and the [fragment] is then the whole string. *)
Theorem directory_empty_iff
    (preferredSeparatorFor : string -> ascii) (absolutify : string -> string)
    (s : string) :
  exists p, new_Path preferredSeparatorFor absolutify s = Ok p
            /\ (directory p = EmptyString <-> occurs (sep p) s = false)
            /\ (occurs (sep p) s = false -> fragment p = s).
Proof.
  destruct (new_Path_fields preferredSeparatorFor absolutify s)
    as (d & frag & Hnew & Hs & Hfrag & Hd).
  eexists. split; [exact Hnew|]. simpl.
  set (c := preferredSeparatorFor s) in *.
  assert (occurs c s = false -> d = EmptyString) as Hempty.
  { intros Hocc. destruct Hd as [-> | Hsuf]; [done|].
    apply occurs_suffix in Hsuf. rewrite Hs, occurs_app, Hsuf in Hocc. done. }
  split_and!.
  - split; [|done]. intros ->. by rewrite Hs.
  - intros Hocc. rewrite (Hempty Hocc), app_nil_str in Hs. done.
Qed.

(** X3: A path is in directory form exactly when its string is empty or ends
    with its separator. *)
Theorem directory_form_iff
    (preferredSeparatorFor : string -> ascii) (absolutify : string -> string)
    (s : string) :
  exists p, new_Path preferredSeparatorFor absolutify s = Ok p
            /\ (isDirectoryForm p
                <-> s = EmptyString \/ isSuffixOf (JS.str (sep p)) s).
Proof.
  destruct (new_Path_fields preferredSeparatorFor absolutify s)
    as (d & frag & Hnew & Hs & Hfrag & Hd).
  eexists. split; [exact Hnew|]. unfold isDirectoryForm. simpl. split.
  - intros ->. rewrite app_empty_r in Hs. by subst d.
  - intros [-> | Hsuf].
    + rewrite new_Path_empty in Hnew. by injection Hnew as _ <-.
    + rewrite (new_Path_trailing_sep _ _ _ Hsuf) in Hnew. by injection Hnew as _ <-.
Qed.



(** ** [hasCaseSensitiveFragment] *)

Lemma toLowerCase_fixed_iff (s : string) :
  String.eqb s (JS.toLowerCase s) = false
  <-> exists c, c ∈ list_ascii_of_string s /\ JS.toLowerCase_char c <> c.
Proof.
  rewrite String.eqb_neq. induction s as [|a s IH]; simpl.
  - split; [done | by intros (c & ?%elem_of_nil & _)].
  - destruct (Ascii.eqb_spec (JS.toLowerCase_char a) a) as [Ha | Ha].
    + rewrite Ha. split.
      * intros Hne. destruct (proj1 IH) as (c & Hc & Hlow); [congruence|].
        exists c. split; [by right | done].
      * intros (c & [-> | Hc]%elem_of_cons & Hlow); [done|].
        intros [= Heq]. apply IH; eauto.
    + split; [|congruence]. intros _. exists a. split; [by left | done].
Qed.

(** X5: [hasCaseSensitiveFragment()] holds exactly when some character of the
    fragment is changed by [toLowerCase]; it never holds for a path in
    directory form. *)
Theorem hasCaseSensitiveFragment_iff (p : Path) :
  (hasCaseSensitiveFragment p = true
   <-> exists c, c ∈ list_ascii_of_string (fragment p)
                 /\ JS.toLowerCase_char c <> c)
  /\ (isDirectoryForm p -> hasCaseSensitiveFragment p = false).
Proof.
  unfold hasCaseSensitiveFragment, isDirectoryForm. split.
  - rewrite andb_true_iff, !negb_true_iff, toLowerCase_fixed_iff. split; [by intros [_ ?]|].
    intros Hex. split; [|done]. apply String.eqb_neq. intros Hfrag.
    rewrite Hfrag in Hex. by destruct Hex as (c & ?%elem_of_nil & _).
  - by intros ->.
Qed.

(** ** [isProjectDirectory] *)

Lemma indexOf_from_range (a : list string) (x : string) (i : Z) :
  (0 <= i)%Z ->
  (indexOf_from a x i = -1 /\ x ∉ a)%Z
  \/ (i <= indexOf_from a x i /\ x ∈ a)%Z.
Proof.
  revert i. induction a as [|y a IH]; intros i Hi; simpl.
  - left. split; [done | apply not_elem_of_nil].
  - destruct (String.eqb_spec y x) as [-> | Hne].
    + right. split; [lia | by left].
    + destruct (IH (i + 1)%Z) as [[-> Hnot] | [Hle Hin]]; [lia | |].
      * left. split; [done|]. by intros [?|?]%elem_of_cons.
      * right. split; [lia | by right].
Qed.

(** X6: [isProjectDirectory()] holds exactly when [absolute] is one of the
    project paths of the host. *)
Theorem isProjectDirectory_iff (projectPaths : list string) (p : Path) :
  isProjectDirectory projectPaths p = true <-> absolute p ∈ projectPaths.
Proof.
  unfold isProjectDirectory, indexOf. rewrite negb_true_iff, Z.eqb_neq.
  destruct (indexOf_from_range projectPaths (absolute p) 0) as [[-> Hnot] | [Hle Hin]];
    [done | |].
  - split; [done | by intros ?].
  - split; [done | lia].
Qed.

(** ** [asDirectory], [parent] and [hasShortcut] together with the constructor *)

(** X7: [asDirectory()] returns a path in directory form: the path itself
    when it is in directory form already, and otherwise the path of [full]
    followed by the separator. *)
Theorem asDirectory_appends_separator
    (nativeSep : ascii) (absolutify : string -> string) (s : string) :
  let new := new_Path (utils_preferredSeparatorFor nativeSep) absolutify in
  let asDir := asDirectory (utils_preferredSeparatorFor nativeSep) absolutify in
  exists p q,
    new s = Ok p /\ asDir p = Ok q
    /\ isDirectoryForm q /\ sep q = sep p
    /\ (isDirectoryForm p -> q = p)
    /\ (~ isDirectoryForm p -> full q = full p +:+ JS.str (sep p)).
Proof.
  intros new asDir. subst new asDir.
  set (separatorOf := utils_preferredSeparatorFor nativeSep).
  destruct (new_Path_fields separatorOf absolutify s) as (d & frag & Hnew & Hs & _).
  exists (mkPath d frag s (absolutify s) (separatorOf s)).
  unfold asDirectory, isDirectoryForm. simpl.
  destruct frag as [|a frag]; simpl.
  - rewrite app_empty_r. eexists. split_and!; [done | exact Hnew | done..].
  - set (s' := s +:+ JS.str (separatorOf s)).
    assert (separatorOf s' = separatorOf s) as Hsep.
    { apply utils_preferredSeparatorFor_append. }
    assert (isSuffixOf (JS.str (separatorOf s')) s') as Hsuf.
    { rewrite Hsep. by eexists. }
    apply new_Path_trailing_sep with (absolutify := absolutify) in Hsuf.
    eexists. split_and!; [done | exact Hsuf | done..].
Qed.

(** X8: Away from the root, the parent of a path that has a fragment is the
    path of its [directory]: putting the fragment back gives the path. *)
Theorem parent_strips_fragment
    (preferredSeparatorFor : string -> ascii) (absolutify dirname : string -> string)
    (s : string) (p : Path) :
  new_Path preferredSeparatorFor absolutify s = Ok p ->
  isRoot dirname p = false ->
  fragment p <> EmptyString ->
  exists q, parent preferredSeparatorFor absolutify dirname p = Ok q
            /\ full q = directory p
            /\ full q +:+ fragment p = full p.
Proof.
  destruct (new_Path_fields preferredSeparatorFor absolutify s)
    as (d & frag & -> & Hs & _).
  intros [= <-] Hroot Hfrag. unfold parent. rewrite Hroot. simpl in *.
  destruct frag as [|a frag]; [done|]. simpl.
  destruct (new_Path_returns preferredSeparatorFor absolutify d) as [q Hq].
  exists q. split; [done|]. apply new_Path_full in Hq as ->. done.
Qed.

Lemma parent_strips_fragment_witness :
  exists q, parent (utils_preferredSeparatorFor Posix.nativeSep)
              (Posix.absolutify "/home/user") Posix.dirname
              (mkPath "lib/" "models.js" "lib/models.js"
                 "/home/user/lib/models.js" "/") = Ok q
            /\ full q = "lib/"
            /\ full q +:+ "models.js" = "lib/models.js".
Proof.
  apply (parent_strips_fragment (utils_preferredSeparatorFor Posix.nativeSep)
           (Posix.absolutify "/home/user") Posix.dirname "lib/models.js").
  - reflexivity.
  - reflexivity.
  - discriminate.
Defined.

(** X10: A directory-form path followed by a token and the separator has that
    token as its shortcut, for a token that holds no separator. *)
Theorem hasShortcut_after_directory
    (nativeSep : ascii) (absolutify : string -> string)
    (s token : string) (p : Path) :
  let new := new_Path (utils_preferredSeparatorFor nativeSep) absolutify in
  nativeSep = "/"%char \/ nativeSep = "\"%char ->
  occurs "/" token = false ->
  occurs "\" token = false ->
  new s = Ok p ->
  isDirectoryForm p ->
  exists q, new (s +:+ token +:+ JS.str (sep p)) = Ok q
            /\ hasShortcut q token = true.
Proof.
  intros new Hnative Hfwd Hback Hp Hdir. subst new.
  set (separatorOf := utils_preferredSeparatorFor nativeSep) in *.
  destruct (new_Path_fields separatorOf absolutify s)
    as (d & frag & Hnew & Hs & _ & Hd).
  rewrite Hp in Hnew. injection Hnew as ->. unfold isDirectoryForm in Hdir.
  simpl in *. subst frag. rewrite app_empty_r in Hs. subst d.
  set (c := separatorOf s) in *.
  set (y := s +:+ token +:+ JS.str c).
  assert (separatorOf y = c) as Hsep.
  { apply utils_preferredSeparatorFor_preserved; [done | |]; fold c.
    - intros a Ha. subst y. rewrite !occurs_app. simpl. rewrite orb_false_r.
      intros [Hocc | [Hocc | Hocc%Ascii.eqb_eq]%orb_true_iff]%orb_true_iff;
        [by left | | by right].
      destruct Ha as [-> | ->]; congruence.
    - subst y. rewrite !occurs_app. simpl.
      by rewrite Ascii.eqb_refl, !orb_true_r. }
  assert (isSuffixOf (JS.str (separatorOf y)) y) as Hsuf.
  { rewrite Hsep. exists (s +:+ token). subst y. by rewrite app_assoc_str. }
  apply new_Path_trailing_sep with (absolutify := absolutify) in Hsuf.
  eexists. split; [exact Hsuf|].
  unfold hasShortcut. simpl. rewrite Hsep.
  destruct Hd as [-> | [e He]].
  - subst y. rewrite app_nil_str, String.eqb_refl. apply orb_true_r.
  - apply orb_true_iff. left. apply endsWith_spec. exists e.
    subst y. rewrite He. by rewrite !app_assoc_str.
Qed.

Lemma hasShortcut_after_directory_witness :
  exists q, new_Path (utils_preferredSeparatorFor Posix.nativeSep)
              (Posix.absolutify "/home/user") ("/foo/bar/" +:+ ":" +:+ "/") = Ok q
            /\ hasShortcut q ":" = true.
Proof.
  apply (hasShortcut_after_directory Posix.nativeSep (Posix.absolutify "/home/user")
           "/foo/bar/" ":"
           (mkPath "/foo/bar/" "" "/foo/bar/" "/foo/bar" "/")).
  - left. reflexivity.
  - reflexivity.
  - reflexivity.
  - reflexivity.
  - reflexivity.
Defined.

(** ** [initial] *)

Lemma utils_preferredSeparatorFor_native (nativeSep : ascii) (x : string) :
  nativeSep = "/"%char \/ nativeSep = "\"%char ->
  utils_preferredSeparatorFor nativeSep (x +:+ JS.str nativeSep) = nativeSep.
Proof.
  unfold utils_preferredSeparatorFor. rewrite !occurs_app.
  intros [-> | ->]; simpl; destruct (occurs "/" x), (occurs "\" x); done.
Qed.

Lemma new_Path_native_suffix
    (nativeSep : ascii) (absolutify : string -> string) (x : string) :
  nativeSep = "/"%char \/ nativeSep = "\"%char ->
  new_Path (utils_preferredSeparatorFor nativeSep) absolutify (x +:+ JS.str nativeSep)
  = Ok (mkPath (x +:+ JS.str nativeSep) EmptyString (x +:+ JS.str nativeSep)
          (absolutify (x +:+ JS.str nativeSep)) nativeSep).
Proof.
  intros Hnative.
  pose proof (utils_preferredSeparatorFor_native nativeSep x Hnative) as Hsep.
  rewrite new_Path_trailing_sep; rewrite Hsep; [done|]. by exists x.
Qed.

(** X11: [initial()] returns for every configuration, editor and project path,
    and what it returns is in directory form on the native separator: the
    empty path, or a path that ends with the native separator. *)
Theorem initial_directory_form
    (nativeSep : ascii) (absolutify dirname : string -> string)
    (DEFAULT_ACTIVE_FILE_DIR DEFAULT_PROJECT_ROOT defaultInputValue : string)
    (editor : option TextEditor) (projectPath : option string) :
  nativeSep = "/"%char \/ nativeSep = "\"%char ->
  exists p,
    initial (utils_preferredSeparatorFor nativeSep) absolutify dirname nativeSep
      DEFAULT_ACTIVE_FILE_DIR DEFAULT_PROJECT_ROOT
      defaultInputValue editor projectPath = Ok p
    /\ isDirectoryForm p
    /\ sep p = nativeSep
    /\ (full p = EmptyString \/ isSuffixOf (JS.str nativeSep) (full p)).
Proof.
  intros Hnative.
  set (separatorOf := utils_preferredSeparatorFor nativeSep).
  assert (exists p, new_Path separatorOf absolutify EmptyString = Ok p
                    /\ isDirectoryForm p /\ sep p = nativeSep
                    /\ (full p = EmptyString
                        \/ isSuffixOf (JS.str nativeSep) (full p))) as Hempty.
  { eexists. split; [apply new_Path_empty|]. split_and!; [done | | by left].
    simpl. by destruct Hnative as [-> | ->]. }
  assert (forall x, exists p,
            new_Path separatorOf absolutify (x +:+ JS.str nativeSep) = Ok p
            /\ isDirectoryForm p /\ sep p = nativeSep
            /\ (full p = EmptyString
                \/ isSuffixOf (JS.str nativeSep) (full p))) as Hsuffix.
  { intros x. eexists. split; [by apply new_Path_native_suffix|].
    split_and!; [done | done |]. right. by exists x. }
  assert (exists p, initial_from_project separatorOf absolutify nativeSep projectPath
                    = Ok p
                    /\ isDirectoryForm p /\ sep p = nativeSep
                    /\ (full p = EmptyString
                        \/ isSuffixOf (JS.str nativeSep) (full p))) as Hproject.
  { unfold initial_from_project.
    destruct projectPath as [path|]; [destruct (JS.truthy path)|]; auto. }
  unfold initial.
  destruct (String.eqb defaultInputValue DEFAULT_ACTIVE_FILE_DIR).
  - destruct editor as [[[path|]]|]; simpl; [destruct (JS.truthy path)| |]; auto.
  - destruct (String.eqb defaultInputValue DEFAULT_PROJECT_ROOT); auto.
Qed.

Lemma initial_directory_form_witness :
  exists p,
    initial (utils_preferredSeparatorFor Posix.nativeSep)
      (Posix.absolutify "/home/user") Posix.dirname Posix.nativeSep
      "activeFileDir" "projectRoot"
      "activeFileDir" (Some (mkTextEditor (Some "/home/user/lib/models.js")))
      (Some "/home/user") = Ok p
    /\ isDirectoryForm p
    /\ sep p = Posix.nativeSep
    /\ (full p = EmptyString \/ isSuffixOf (JS.str Posix.nativeSep) (full p)).
Proof.
  apply (initial_directory_form Posix.nativeSep (Posix.absolutify "/home/user")
           Posix.dirname).
  left. reflexivity.
Defined.

(** ** [root] *)

Section Root.

Context (preferredSeparatorFor : string -> ascii)
        (absolutify dirname : string -> string).

Local Abbreviation loop := (root_loop dirname).

(** The string the loop ends with is [current] when [last] is [current],
    and otherwise a fixed point of [dirname]; it is reached from [current]
    by applying [dirname] fewer times than the bound. *)
Lemma root_loop_result (fuel : nat) (last : option string) (current y : string) :
  loop fuel last current = Some y ->
  ((last = Some current /\ y = current) \/ dirname y = y)
  /\ exists n, n < fuel /\ y = Nat.iter n dirname current.
Proof.
  revert last current. induction fuel as [|fuel IH]; intros last current; simpl; [done|].
  assert (loop fuel (Some current) (dirname current) = Some y ->
          dirname y = y
          /\ exists n, n < S fuel /\ y = Nat.iter n dirname current) as Hstep.
  { intros Hloop. destruct (IH _ _ Hloop) as [Hfix (n & Hn & Hy)]. split.
    - destruct Hfix as [[[= Heq] ->] | Hfix]; [congruence | done].
    - exists (S n). split; [lia|]. by rewrite Nat.iter_succ_r. }
  destruct last as [l|]; simpl.
  - destruct (String.eqb_spec current l) as [-> | Hne]; simpl.
    + intros [= ->]. split; [by left|]. exists 0. split; [lia | done].
    + intros Hloop. destruct (Hstep Hloop) as [Hfix Hiter]. auto.
  - intros Hloop. destruct (Hstep Hloop) as [Hfix Hiter]. auto.
Qed.

(** A larger bound gives the same result. *)
Lemma root_loop_more_fuel (fuel fuel' : nat) (last : option string)
    (current y : string) :
  loop fuel last current = Some y -> fuel <= fuel' ->
  loop fuel' last current = Some y.
Proof.
  revert fuel' last current.
  induction fuel as [|fuel IH]; intros fuel' last current; simpl; [done|].
  intros Hloop Hle. destruct fuel' as [|fuel']; [lia|]. simpl.
  destruct (negb _); [|done]. apply IH; [done | lia].
Qed.

End Root.

(** X12: When [root()] returns, it returns the path of a fixed point of
    [dirname], reached from [absolute] by applying [dirname] over and over;
    a larger bound on the loop gives the same path. *)
Theorem root_fixed_point
    (preferredSeparatorFor : string -> ascii) (absolutify dirname : string -> string)
    (fuel : nat) (p : Path) (r : result Path) :
  root preferredSeparatorFor absolutify dirname fuel p = Some r ->
  (exists y n,
     r = new_Path preferredSeparatorFor absolutify y
     /\ dirname y = y
     /\ y = Nat.iter n dirname (absolute p))
  /\ forall fuel', fuel <= fuel' ->
       root preferredSeparatorFor absolutify dirname fuel' p = Some r.
Proof.
  unfold root.
  destruct (root_loop dirname fuel None (absolute p)) as [y|] eqn:Hloop; [|done].
  intros [= <-]. split.
  - destruct (root_loop_result dirname _ _ _ _ Hloop) as [[[? _] | Hfix] (n & _ & Hy)];
      [done|].
    by exists y, n.
  - intros fuel' Hle. by rewrite (root_loop_more_fuel dirname _ _ _ _ _ Hloop Hle).
Qed.

Lemma root_fixed_point_witness :
  let separatorOf := utils_preferredSeparatorFor Posix.nativeSep in
  let absolutify := Posix.absolutify "/home/user" in
  let p := mkPath "lib/" "models.js" "lib/models.js" "/home/user/lib/models.js" "/" in
  (exists y n,
     new_Path separatorOf absolutify "/" = new_Path separatorOf absolutify y
     /\ Posix.dirname y = y
     /\ y = Nat.iter n Posix.dirname (absolute p))
  /\ forall fuel', 6 <= fuel' ->
       root separatorOf absolutify Posix.dirname fuel' p
       = Some (new_Path separatorOf absolutify "/").
Proof.
  intros separatorOf absolutify p.
  apply (root_fixed_point separatorOf absolutify Posix.dirname 6 p).
  reflexivity.
Defined.

(** ** [root] on a POSIX host *)

Lemma length_list_ascii_of_string (s : string) :
  length (list_ascii_of_string s) = String.length s.
Proof. induction s as [|c s IH]; simpl; congruence. Qed.

Lemma length_string_of_list_ascii (l : list ascii) :
  String.length (string_of_list_ascii l) = length l.
Proof. induction l as [|c l IH]; simpl; congruence. Qed.

Lemma dropWhile_length (f : ascii -> bool) (l : list ascii) :
  length (Posix.dropWhile f l) <= length l.
Proof.
  induction l as [|a l IH]; simpl; [done|]. destruct (f a); simpl; lia.
Qed.

Lemma dropWhile_head (f : ascii -> bool) (l k : list ascii) (a : ascii) :
  Posix.dropWhile f l = a :: k -> f a = false.
Proof.
  induction l as [|b l IH]; simpl; [done|].
  destruct (f b) eqn:Hb; [done|]. by intros [= <- _].
Qed.

(** What the scan of [dirname] keeps is shorter by two than what it
    scanned: it drops a segment and stops on a slash. *)
Lemma posix_scan_length (l before : list ascii) (a : ascii) :
  Posix.dropWhile (fun c => negb (Posix.isSlash c)) (Posix.dropWhile Posix.isSlash l)
  = a :: before ->
  length before + 2 <= length l.
Proof.
  intros Hkept. pose proof (dropWhile_length Posix.isSlash l) as Hlen.
  destruct (Posix.dropWhile Posix.isSlash l) as [|h m] eqn:Hm; [done|].
  pose proof (dropWhile_head _ _ _ _ Hm) as Hh.
  pose proof (dropWhile_head _ _ _ _ Hkept) as Ha.
  simpl in Hkept. rewrite Hh in Hkept. simpl in Hkept.
  pose proof (dropWhile_length (fun c => negb (Posix.isSlash c)) m) as Hlen'.
  rewrite Hkept in Hlen'. simpl in *. lia.
Qed.

(** The [dirname] of an absolute path is an absolute path, and a shorter
    one unless the path is ["/"]. *)
Lemma posix_dirname_absolute (x : string) :
  isPrefixOf "/" x ->
  isPrefixOf "/" (Posix.dirname x)
  /\ (x <> "/" -> String.length (Posix.dirname x) < String.length x).
Proof.
  intros [rest ->]. rewrite app_cons_str, app_nil_str.
  unfold Posix.dirname. simpl.
  pose proof (posix_scan_length (rev (list_ascii_of_string rest))) as Hscan.
  destruct (Posix.dropWhile _ _) as [|a before].
  - split; [by exists EmptyString|]. intros Hne. destruct rest; [done | simpl; lia].
  - specialize (Hscan before a eq_refl).
    rewrite length_rev, length_list_ascii_of_string in Hscan.
    destruct (length before =? 0); simpl.
    + split; [by exists "/" | lia].
    + split; [by eexists|]. intros _.
      rewrite length_string_of_list_ascii, length_rev. lia.
Qed.

(** On an absolute path the loop of [root()] ends with ["/"], within two
    tests more than the path has characters. *)
Lemma posix_root_loop (n : nat) (last : option string) (x : string) :
  isPrefixOf "/" x ->
  String.length x <= n ->
  (last = Some x -> x = "/") ->
  root_loop Posix.dirname (n + 2) last x = Some "/".
Proof.
  revert last x. induction n as [|n IH]; intros last x Habs Hlen Hlast.
  { destruct Habs as [r ->]. simpl in Hlen. lia. }
  destruct (posix_dirname_absolute x Habs) as [Habs' Hshrink].
  assert (root_loop Posix.dirname (n + 2) (Some x) (Posix.dirname x) = Some "/")
    as Hstep.
  { destruct (String.eqb_spec x "/") as [-> | Hne].
    - by replace (n + 2) with (S (n + 1)) by lia.
    - specialize (Hshrink Hne). apply IH; [done | lia |].
      intros [= Heq]. rewrite <- Heq in Hshrink. lia. }
  replace (S n + 2) with (S (n + 2)) by lia. simpl.
  destruct last as [l|]; simpl; [|done].
  destruct (String.eqb_spec x l) as [-> | Hne]; simpl; [|done].
  by rewrite Hlast.
Qed.

(** X13: On a POSIX host, [root()] of a path whose [absolute] is an absolute
    path returns the path of ["/"], once the bound on the loop is two more
    than the length of [absolute].  That path is a root, it is its own
    [parent], and [root()] maps it to itself. *)
Theorem root_posix
    (preferredSeparatorFor : string -> ascii) (absolutify : string -> string)
    (p : Path) (fuel : nat) :
  isPrefixOf "/" (absolute p) ->
  absolutify "/" = "/" ->
  String.length (absolute p) + 2 <= fuel ->
  exists q,
    root preferredSeparatorFor absolutify Posix.dirname fuel p = Some (Ok q)
    /\ full q = "/"
    /\ isRoot Posix.dirname q = true
    /\ parent preferredSeparatorFor absolutify Posix.dirname q = Ok q
    /\ forall fuel', 3 <= fuel' ->
         root preferredSeparatorFor absolutify Posix.dirname fuel' q = Some (Ok q).
Proof.
  intros Habs Hslash Hfuel.
  assert (forall (x : string) (bound : nat),
            isPrefixOf "/" x -> String.length x + 2 <= bound ->
            root_loop Posix.dirname bound None x = Some "/") as Hloop.
  { intros x bound Hx Hbound.
    replace bound with ((bound - 2) + 2) by lia.
    apply posix_root_loop; [done | lia | done]. }
  destruct (new_Path_returns preferredSeparatorFor absolutify "/") as [q Hq].
  assert (absolute q = "/") as Habsq.
  { destruct (new_Path_fields preferredSeparatorFor absolutify "/")
      as (d & frag & Hnew & _).
    rewrite Hq in Hnew. injection Hnew as ->. done. }
  assert (isRoot Posix.dirname q = true) as Hroot.
  { unfold isRoot. by rewrite Habsq. }
  exists q. unfold root. rewrite (Hloop _ _ Habs Hfuel). split_and!.
  - by rewrite Hq.
  - by apply new_Path_full in Hq.
  - done.
  - unfold parent. by rewrite Hroot.
  - intros fuel' Hfuel'. rewrite Habsq, Hloop; [by rewrite Hq | by exists EmptyString |].
    simpl. lia.
Qed.

Lemma root_posix_witness :
  let separatorOf := utils_preferredSeparatorFor Posix.nativeSep in
  let absolutify := Posix.absolutify "/home/user" in
  let p := mkPath "lib/" "models.js" "lib/models.js" "/home/user/lib/models.js" "/" in
  exists q,
    root separatorOf absolutify Posix.dirname 26 p = Some (Ok q)
    /\ full q = "/"
    /\ isRoot Posix.dirname q = true
    /\ parent separatorOf absolutify Posix.dirname q = Ok q
    /\ forall fuel', 3 <= fuel' ->
         root separatorOf absolutify Posix.dirname fuel' q = Some (Ok q).
Proof.
  intros separatorOf absolutify p.
  apply (root_posix separatorOf absolutify p 26).
  - unfold isPrefixOf. exists "home/user/lib/models.js". reflexivity.
  - reflexivity.
  - simpl. lia.
Defined.

(** ** More on [commonPrefix] *)

Lemma str_le_antisym (a b : string) : str_le a b -> str_le b a -> a = b.
Proof. apply String.leb_antisym. Qed.

(** The sorted array depends on the strings only, not on their order. *)
Lemma sorted_Permutation_eq (l l' : list string) :
  l ≡ₚ l' -> JSArray.sorted l = JSArray.sorted l'.
Proof.
  intros Hperm.
  apply (@StronglySorted_unique _ str_le str_le_antisym).
  - apply sorted_StronglySorted.
  - apply sorted_StronglySorted.
  - by rewrite !sorted_Permutation.
Qed.

(** X17: The outcome of [commonPrefix] does not depend on the order of the
    paths in the array, nor on which array holds them. *)
Theorem commonPrefix_order_independent
    (preferredSeparatorFor : string -> ascii) (absolutify : string -> string)
    (h h' : store) (paths paths' : ref) (items items' : list Path)
    (caseSensitive : bool) :
  h !! paths = Some (PathArray items) ->
  h' !! paths' = Some (PathArray items') ->
  map full items ≡ₚ map full items' ->
  (commonPrefix preferredSeparatorFor absolutify paths caseSensitive h).1
  = (commonPrefix preferredSeparatorFor absolutify paths' caseSensitive h').1.
Proof.
  intros Hpaths Hpaths' Hperm.
  assert (length items = length items') as Hlen.
  { apply Permutation_length in Hperm. by rewrite !length_map in Hperm. }
  destruct (Nat.lt_ge_cases (length items) 2) as [Hshort | Hlong].
  - assert (array_length (PathArray items') < 2) as Hshort' by (simpl; lia).
    rewrite (commonPrefix_short _ _ h paths (PathArray items) _ Hpaths Hshort).
    by rewrite (commonPrefix_short _ _ h' paths' (PathArray items') _ Hpaths' Hshort').
  - assert (2 <= length items') as Hlong' by lia.
    rewrite (commonPrefix_run _ _ h paths items _ Hpaths Hlong).
    rewrite (commonPrefix_run _ _ h' paths' items' _ Hpaths' Hlong').
    simpl. by rewrite (sorted_Permutation_eq _ _ Hperm).
Qed.

Lemma commonPrefix_order_independent_witness :
  let separatorOf := utils_preferredSeparatorFor Posix.nativeSep in
  let absolutify := Posix.absolutify "/home/user" in
  let a := mkPath "/lib/" "models.js" "/lib/models.js" "/lib/models.js" "/" in
  let b := mkPath "/lib/" "main.js" "/lib/main.js" "/lib/main.js" "/" in
  let c := mkPath "/lib/" "Make" "/lib/Make" "/lib/Make" "/" in
  (commonPrefix separatorOf absolutify 0 false {[ 0 := PathArray [a; b; c] ]}).1
  = (commonPrefix separatorOf absolutify 4 false {[ 4 := PathArray [c; a; b] ]}).1.
Proof.
  intros separatorOf absolutify a b c.
  apply (commonPrefix_order_independent separatorOf absolutify
           {[ 0 := PathArray [a; b; c] ]} {[ 4 := PathArray [c; a; b] ]}
           0 4 [a; b; c] [c; a; b] false).
  - reflexivity.
  - reflexivity.
  - simpl. apply Permutation_sym, (Permutation_cons_append [_; _]).
Defined.

Lemma sharedPrefix_diag (cs : bool) (s : string) : sharedPrefix cs s s = s.
Proof.
  induction s as [|c s IH]; simpl; [done|]. by rewrite Ascii.eqb_refl, IH.
Qed.

(** X18: The common prefix of paths that all have the same [full] string is the
    path of that string, with case ignored or not. *)
Theorem commonPrefix_same_path
    (preferredSeparatorFor : string -> ascii) (absolutify : string -> string)
    (h : store) (paths : ref) (items : list Path) (caseSensitive : bool)
    (s : string) :
  h !! paths = Some (PathArray items) ->
  2 <= length items ->
  Forall (fun p => full p = s) items ->
  exists p,
    (commonPrefix preferredSeparatorFor absolutify paths caseSensitive h).1 = Ok p
    /\ full p = s.
Proof.
  intros Hpaths Hlen Hall.
  destruct (commonPrefix_extremes preferredSeparatorFor absolutify h paths items
              caseSensitive Hpaths Hlen)
    as (first & last & p & Hfirst & Hlast & Hp & Hfull).
  destruct (sorted_extremes_elem_of _ _ _ Hfirst Hlast) as [Hin_first Hin_last].
  assert (forall x, x ∈ map full items -> x = s) as Hsame.
  { intros x (q & -> & Hq)%list_elem_of_fmap. by eapply Forall_forall in Hall. }
  exists p. split; [done|].
  by rewrite Hfull, (Hsame _ Hin_first), (Hsame _ Hin_last), sharedPrefix_diag.
Qed.

Lemma commonPrefix_same_path_witness :
  let separatorOf := utils_preferredSeparatorFor Posix.nativeSep in
  let absolutify := Posix.absolutify "/home/user" in
  let a := mkPath "/lib/" "Models.js" "/lib/Models.js" "/lib/Models.js" "/" in
  exists p,
    (commonPrefix separatorOf absolutify 2 false {[ 2 := PathArray [a; a; a] ]}).1
    = Ok p
    /\ full p = "/lib/Models.js".
Proof.
  intros separatorOf absolutify a.
  apply (commonPrefix_same_path separatorOf absolutify
           {[ 2 := PathArray [a; a; a] ]} 2 [a; a; a] false "/lib/Models.js").
  - reflexivity.
  - simpl. lia.
  - repeat constructor.
Defined.

(** X16: With case ignored, what [commonPrefix] returns is the longest prefix,
    up to case, that the smallest and the largest [full] string in the
    order of code units have in common. *)
Theorem commonPrefix_ignoring_case
    (preferredSeparatorFor : string -> ascii) (absolutify : string -> string)
    (h : store) (paths : ref) (items : list Path) :
  h !! paths = Some (PathArray items) ->
  2 <= length items ->
  exists first last p,
    first ∈ map full items /\ last ∈ map full items
    /\ (forall x, x ∈ map full items -> str_le first x /\ str_le x last)
    /\ (commonPrefix preferredSeparatorFor absolutify paths false h).1 = Ok p
    /\ longestCommonPrefixOf_ci (full p) [first; last].
Proof.
  intros Hpaths Hlen.
  destruct (commonPrefix_extremes preferredSeparatorFor absolutify h paths items
              false Hpaths Hlen)
    as (first & last & p & Hfirst & Hlast & Hp & Hfull).
  destruct (sorted_extremes_elem_of _ _ _ Hfirst Hlast) as [Hin_first Hin_last].
  exists first, last, p. split_and!; try done.
  - intros x Hx. by apply sorted_extremes with (map full items).
  - rewrite Hfull. apply sharedPrefix_ci_longest.
Qed.

Lemma commonPrefix_ignoring_case_witness :
  let separatorOf := utils_preferredSeparatorFor Posix.nativeSep in
  let absolutify := Posix.absolutify "/home/user" in
  let a := mkPath "/" "Ab" "/Ab" "/Ab" "/" in
  let b := mkPath "/" "B" "/B" "/B" "/" in
  let c := mkPath "/" "ab" "/ab" "/ab" "/" in
  exists first last p,
    first ∈ map full [a; b; c] /\ last ∈ map full [a; b; c]
    /\ (forall x, x ∈ map full [a; b; c] -> str_le first x /\ str_le x last)
    /\ (commonPrefix separatorOf absolutify 0 false {[ 0 := PathArray [a; b; c] ]}).1
       = Ok p
    /\ longestCommonPrefixOf_ci (full p) [first; last].
Proof.
  intros separatorOf absolutify a b c.
  apply (commonPrefix_ignoring_case separatorOf absolutify
           {[ 0 := PathArray [a; b; c] ]} 0 [a; b; c]).
  - reflexivity.
  - simpl. lia.
Defined.

(** ** [parent] on a POSIX host *)

Lemma dropWhile_suffix (f : ascii -> bool) (l : list ascii) :
  exists pre, l = pre ++ Posix.dropWhile f l.
Proof.
  induction l as [|a l (pre & IH)]; simpl; [by exists []|].
  destruct (f a); [|by exists []]. exists (a :: pre). by rewrite IH at 1.
Qed.

Lemma string_of_list_ascii_app (l k : list ascii) :
  string_of_list_ascii (l ++ k) = string_of_list_ascii l +:+ string_of_list_ascii k.
Proof. induction l as [|a l IH]; str_simpl; congruence. Qed.

(** When the scan of [dirname] stops on a slash, the path is what the scan
    keeps, that slash, and a rest that is not empty. *)
Lemma posix_scan_split (rest before : list ascii) (a : ascii) :
  Posix.dropWhile (fun c => negb (Posix.isSlash c))
    (Posix.dropWhile Posix.isSlash (rev rest)) = a :: before ->
  a = "/"%char
  /\ exists tail, tail <> [] /\ rest = rev before ++ a :: tail.
Proof.
  intros Hkept.
  pose proof (dropWhile_head _ _ _ _ Hkept) as Ha.
  apply negb_false_iff, Ascii.eqb_eq in Ha.
  destruct (dropWhile_suffix Posix.isSlash (rev rest)) as [pre1 Hpre1].
  destruct (Posix.dropWhile Posix.isSlash (rev rest)) as [|h m] eqn:Hm; [done|].
  pose proof (dropWhile_head _ _ _ _ Hm) as Hh.
  simpl in Hkept. rewrite Hh in Hkept. simpl in Hkept.
  destruct (dropWhile_suffix (fun c => negb (Posix.isSlash c)) m) as [pre2 Hpre2].
  rewrite Hkept in Hpre2. split; [done|].
  exists (rev pre2 ++ h :: rev pre1). split; [by destruct (rev pre2)|].
  apply (f_equal (@rev ascii)) in Hpre1. rewrite rev_involutive in Hpre1.
  rewrite Hpre1, Hpre2. simpl. rewrite !rev_app_distr. simpl.
  rewrite !rev_app_distr. simpl. by rewrite <- !app_assoc.
Qed.

(** The directory above an absolute path: [dirname], with a slash added
    unless it ends with one, is a prefix of the path, and a shorter one
    unless the path is ["/"]. *)
Lemma posix_dirname_prefix (x : string) :
  isPrefixOf "/" x ->
  x <> "/" ->
  let above :=
    if negb (JS.endsWith (Posix.dirname x) "/") then Posix.dirname x +:+ "/"
    else Posix.dirname x in
  isPrefixOf above x /\ String.length above < String.length x.
Proof.
  intros [rest ->] Hne. rewrite app_cons_str, app_nil_str in *.
  unfold Posix.dirname. simpl.
  pose proof (posix_scan_split (list_ascii_of_string rest)) as Hscan.
  destruct (Posix.dropWhile _ _) as [|a before].
  - simpl. split; [by exists rest|]. destruct rest; [done | simpl; lia].
  - destruct (Hscan before a eq_refl) as (-> & tail & Htail & Hrest).
    apply (f_equal string_of_list_ascii) in Hrest.
    rewrite string_of_list_ascii_of_string, string_of_list_ascii_app in Hrest.
    simpl in Hrest.
    assert (String.length (string_of_list_ascii tail) <> 0) as Hlen.
    { rewrite length_string_of_list_ascii. by destruct tail. }
    set (t := string_of_list_ascii tail) in *.
    set (b := string_of_list_ascii (rev before)) in *.
    assert (length before = 0 -> b = EmptyString) as Hb.
    { intros Hzero. subst b. by destruct before. }
    destruct (length before =? 0) eqn:Hzero; simpl.
    + apply Nat.eqb_eq in Hzero. rewrite (Hb Hzero), app_nil_str in Hrest.
      subst rest. split; [by exists t | simpl; lia].
    + destruct (JS.endsWith (String "/" b) "/") eqn:Hends; simpl.
      * subst rest. split; [by exists (String "/" t)|].
        simpl. rewrite length_app. simpl. lia.
      * subst rest. split.
        -- exists t. by rewrite !app_cons_str, app_assoc_str.
        -- simpl. rewrite !length_app. simpl. lia.
Qed.

(** X9: On a POSIX host, away from the root, the parent of an absolute path
    is the path of a prefix of its string, and of a shorter one: going up
    comes to an end. *)
Theorem parent_posix_shortens
    (absolutify : string -> string) (s : string) (p : Path) :
  let separatorOf := utils_preferredSeparatorFor Posix.nativeSep in
  isPrefixOf "/" s ->
  s <> "/" ->
  new_Path separatorOf absolutify s = Ok p ->
  isRoot Posix.dirname p = false ->
  exists q, parent separatorOf absolutify Posix.dirname p = Ok q
            /\ isPrefixOf (full q) s
            /\ String.length (full q) < String.length s.
Proof.
  intros separatorOf Habs Hne Hp Hroot.
  destruct (new_Path_fields separatorOf absolutify s)
    as (d & frag & Hnew & Hs & _).
  rewrite Hp in Hnew. injection Hnew as ->.
  assert (separatorOf s = "/"%char) as Hsep.
  { destruct Habs as [r ->]. subst separatorOf.
    unfold utils_preferredSeparatorFor. rewrite app_cons_str. simpl.
    by destruct (occurs "\" _). }
  unfold parent. rewrite Hroot. simpl.
  destruct frag as [|a frag]; simpl.
  - rewrite app_empty_r in Hs. subst d. rewrite Hsep.
    destruct (posix_dirname_prefix s Habs Hne) as [Hpre Hlen].
    change (JS.str "/") with "/".
    set (above := if negb _ then _ else _) in *.
    destruct (new_Path_returns separatorOf absolutify above) as [q Hq].
    exists q. split; [done|]. by apply new_Path_full in Hq as ->.
  - destruct (new_Path_returns separatorOf absolutify d) as [q Hq].
    exists q. split; [done|]. apply new_Path_full in Hq as ->.
    split; [by eexists|]. rewrite Hs, length_app. simpl. lia.
Qed.

Lemma parent_posix_shortens_witness :
  exists q, parent (utils_preferredSeparatorFor Posix.nativeSep)
              (Posix.absolutify "/home/user") Posix.dirname
              (mkPath "/home/user/" "" "/home/user/" "/home/user" "/") = Ok q
            /\ isPrefixOf (full q) "/home/user/"
            /\ String.length (full q) < String.length "/home/user/".
Proof.
  apply (parent_posix_shortens (Posix.absolutify "/home/user") "/home/user/").
  - unfold isPrefixOf. exists "home/user/". reflexivity.
  - discriminate.
  - reflexivity.
  - reflexivity.
Defined.
